(** * Command registry: discovery, cache and dispatch

    A shallow embedding of the launcher's command registry (the module
    that scans the disk for applications and System Settings panes,
    keeps the catalog in a single-slot cache with a time-to-live, and
    dispatches execution requests), followed by the properties of the
    written specification that the code decides.

    Conventions of the embedding.
    - A JavaScript string is a [string]; the character operations
      ([toLowerCase], [trim], the regular expressions) are the ASCII
      restrictions of the JavaScript ones: a character outside ASCII is
      neither a letter, a digit nor white space.
    - A manifest read by [plutil] is a JSON object; [PlistInfo] holds
      the five keys the registry reads, each absent or a string, which
      is what the property-list format of a bundle prescribes for them.
      JavaScript itself does not check this: [Json], [RawInfo] and
      [appexCallback] give the extension callback on arbitrary JSON
      values, where it can throw, and [appexCallback_on_strings] shows
      that [appexCandidate] is that callback on manifests whose values
      are strings. A [World] is a machine whose manifests are of that
      kind.
    - The outside world (file system, external tools, clock, collation
      and the completion order of concurrent reads) is a record of
      oracles, [World], fixed for the duration of one call.
    - Module-level variables ([iconCounter], [cachedCommands],
      [cacheTimestamp]) and the observable side effects (processes
      started, console output, quitting) live in a state record that
      every asynchronous function threads through a state monad. *)

From Stdlib Require Import ZArith NArith Ascii String DecimalString.
From stdpp Require Import base decidable option list sorting gmap strings.

Local Open Scope Z_scope.

(** ** JavaScript string primitives *)

Module Js.

Definition code (c : ascii) : N := N_of_ascii c.

Definition inRange (lo hi : N) (c : ascii) : bool :=
  ((lo <=? code c) && (code c <=? hi))%N.

(** [[A-Z]], [[a-z]], [[0-9]] and [\w]. *)
Definition isUpper : ascii → bool := inRange 65 90.
Definition isLower : ascii → bool := inRange 97 122.
Definition isDigit : ascii → bool := inRange 48 57.
Definition isWordChar (c : ascii) : bool :=
  isUpper c || isLower c || isDigit c || bool_decide (c = "_"%char).

Definition toLowerChar (c : ascii) : ascii :=
  if isUpper c then ascii_of_N (code c + 32)%N else c.

(** [s.toLowerCase()] *)
Fixpoint toLowerCase (s : string) : string :=
  match s with
  | EmptyString => EmptyString
  | String c t => String (toLowerChar c) (toLowerCase t)
  end.

(** [s.startsWith(p)] *)
Definition startsWith (s p : string) : bool := String.prefix p s.

(** [s.endsWith(p)]: the last [p.length] characters of [s] are [p]. *)
Definition endsWith (s p : string) : bool :=
  (String.length p <=? String.length s)%nat
  && bool_decide
       (String.substring (String.length s - String.length p)
          (String.length p) s = p).

(** [s.includes(p)] *)
Fixpoint includes (s p : string) : bool :=
  String.prefix p s ||
  match s with
  | EmptyString => false
  | String _ t => includes t p
  end.

(** [s.slice(0, s.length - n)] for [n <= s.length]. *)
Definition dropEnd (n : nat) (s : string) : string :=
  String.substring 0 (String.length s - n) s.

(** [s.slice(n)] *)
Fixpoint dropStart (n : nat) (s : string) : string :=
  match n, s with
  | O, _ => s
  | S _, EmptyString => EmptyString
  | S n', String _ t => dropStart n' t
  end.

Fixpoint trimStart (s : string) : string :=
  match s with
  | EmptyString => EmptyString
  | String c t => if Ascii.is_space c then trimStart t else s
  end.

(** [s.trim()] *)
Definition trim (s : string) : string :=
  String.rev (trimStart (String.rev (trimStart s))).

(** [s.replace(/SUF$/, '')] for a literal suffix [SUF]. *)
Definition stripSuffix (suf s : string) : string :=
  if endsWith s suf then dropEnd (String.length suf) s else s.

(** Truthiness of a string: only the empty string is falsy. *)
Definition truthy (s : string) : bool := negb (bool_decide (s = "")).

(** [a || b] on values that are a string or [undefined]. *)
Definition orElse (a b : option string) : option string :=
  match a with
  | Some s => if truthy s then a else b
  | None => b
  end.

(** [a || ''] *)
Definition orEmpty (a : option string) : string :=
  match a with
  | Some s => s
  | None => ""
  end.

(** [path.join(...)] on segments that are already normalised: empty
    segments are skipped and the others are joined with a slash. *)
Fixpoint joinNonEmpty (segs : list string) : string :=
  match segs with
  | [] => ""
  | [s] => s
  | s :: rest => s +:+ "/" +:+ joinNonEmpty rest
  end.

Definition pathJoin (segs : list string) : string :=
  joinNonEmpty (filter (λ s, s ≠ "") segs).

(** The text after the last slash. *)
Fixpoint lastSegmentAcc (acc s : string) : string :=
  match s with
  | EmptyString => String.rev acc
  | String c t =>
      if bool_decide (c = "/"%char) then lastSegmentAcc "" t
      else lastSegmentAcc (String c acc) t
  end.

Definition lastSegment (s : string) : string := lastSegmentAcc "" s.

(** [path.basename(p, ext)] for a path without trailing slash: the
    last segment without [ext], except that a segment equal to [ext]
    is returned whole. *)
Definition basename (p ext : string) : string :=
  let b := lastSegment p in
  if bool_decide (p = ext) then ""
  else if endsWith b ext && negb (bool_decide (b = ext))
       then dropEnd (String.length ext) b
       else b.

End Js.

(** ** The name normalizer, [cleanPaneName] *)

(** [s.replace(/([a-z])([A-Z])/g, '$1 $2')]: after a match the scan
    resumes behind the upper-case letter. *)
Fixpoint splitLowerUpper (s : string) : string :=
  match s with
  | EmptyString => EmptyString
  | String a t =>
      match t with
      | EmptyString => s
      | String b r =>
          if Js.isLower a && Js.isUpper b
          then String a (String " " (String b (splitLowerUpper r)))
          else String a (splitLowerUpper t)
      end
  end.

(** Length of the longest prefix of upper-case letters. *)
Fixpoint upperRun (s : string) : nat :=
  match s with
  | EmptyString => O
  | String c t => if Js.isUpper c then S (upperRun t) else O
  end.

Definition charIs (p : ascii → bool) (i : nat) (s : string) : bool :=
  match String.get i s with
  | Some c => p c
  | None => false
  end.

(** Backtracking of the greedy [[A-Z]+]: the first group shrinks from
    [k] letters down to one until [[A-Z][a-z]] matches behind it. *)
Fixpoint acronymBacktrack (k : nat) (s : string) : option nat :=
  match k with
  | O => None
  | S k' =>
      if charIs Js.isUpper k s && charIs Js.isLower (S k) s then Some k
      else acronymBacktrack k' s
  end.

(** A match of [/([A-Z]+)([A-Z][a-z])/] anchored at the start of [s]:
    the length of the first group. *)
Definition acronymMatch (s : string) : option nat :=
  acronymBacktrack (upperRun s) s.

Fixpoint splitAcronymFuel (fuel : nat) (s : string) : string :=
  match fuel with
  | O => s
  | S fuel' =>
      match s with
      | EmptyString => EmptyString
      | String c t =>
          match acronymMatch s with
          | Some k =>
              String.substring 0 k s +:+ " " +:+ String.substring k 2 s
                +:+ splitAcronymFuel fuel' (Js.dropStart (k + 2) s)
          | None => String c (splitAcronymFuel fuel' t)
          end
      end
  end.

(** [s.replace(/([A-Z]+)([A-Z][a-z])/g, '$1 $2')] *)
Definition splitAcronym (s : string) : string :=
  splitAcronymFuel (String.length s) s.

(** [s.replace(/\bAnd\b/g, '&')]. [prevWord] tells whether the character
    before the scan position is a word character, [skip] how many
    characters of the last match are still to be consumed. *)
Fixpoint replaceAndGo (skip : nat) (prevWord : bool) (s : string) : string :=
  match s with
  | EmptyString => EmptyString
  | String c t =>
      match skip with
      | S skip' => replaceAndGo skip' (Js.isWordChar c) t
      | O =>
          if negb prevWord && Js.startsWith s "And"
             && negb (charIs Js.isWordChar 3 s)
          then String "&" (replaceAndGo 2 true t)
          else String c (replaceAndGo 0 (Js.isWordChar c) t)
      end
  end.

Definition replaceAnd (s : string) : string := replaceAndGo 0 false s.

(** The table [replacements], in the order of its keys. *)
Definition replacements : list (string * string) :=
  [ ("And", "&");
    ("Energy Saver", "Energy Saver");
    ("Print And Fax", "Printers & Fax");
    ("Print And Scan", "Printers & Scanners");
    ("Sharing Pref", "Sharing");
    ("Expose", "Mission Control");
    ("Universal Access Pref", "Accessibility");
    ("Localization", "Language & Region");
    ("Speech", "Siri & Dictation");
    ("Discs", "Discs Handling");
    ("Apple ID Pref Pane", "Apple ID");
    ("Family Sharing Pref Pane", "Family Sharing");
    ("Class Kit Preference Pane", "Classroom");
    ("Desktop Screen Effects", "Desktop & Screen Saver");
    ("Touch ID", "Touch ID & Password");
    ("Digi Hub", "CDs & DVDs") ].

(** The loop over [Object.entries(replacements)]: the first key equal to
    [s] replaces it and ends the loop. *)
Fixpoint applyReplacements (table : list (string * string)) (s : string)
  : string :=
  match table with
  | [] => s
  | (from, to) :: rest =>
      if bool_decide (s = from) then to else applyReplacements rest s
  end.

Definition stripKnownSuffixes (raw : string) : string :=
  Js.stripSuffix "IntentsExtension"
    (Js.stripSuffix "Intents"
      (Js.stripSuffix "Extension"
        (Js.stripSuffix "Settings"
          (Js.stripSuffix "SettingsExtension"
            (Js.stripSuffix ".prefPane"
              (Js.stripSuffix "Pref" raw)))))).

Definition cleanPaneName (raw : string) : string :=
  let s := stripKnownSuffixes raw in
  let s := splitLowerUpper s in
  let s := splitAcronym s in
  let s := replaceAnd s in
  let s := applyReplacements replacements s in
  Js.trim s.

(** ** Data model *)

Inductive Category := CatApp | CatSettings | CatSystem.

#[global] Instance Category_eq_dec : EqDecision Category.
Proof. solve_decision. Defined.

(** [interface CommandInfo]; an optional field is an [option]. *)
Record CommandInfo := {
  id : string;
  title : string;
  keywords : option (list string);
  iconDataUrl : option string;
  category : Category;
  path : option string;
}.

(** The keys of a bundle's [Info.plist] that the registry reads, each
    absent or a string. The TypeScript type of a manifest is
    [Record<string, any>]: a manifest whose value for one of these keys
    is not a string is outside this record (see [RawInfo]). *)
Record PlistInfo := {
  CFBundleIconFile : option string;
  CFBundleIconName : option string;
  CFBundleDisplayName : option string;
  CFBundleName : option string;
  CFBundleIdentifier : option string;
}.

(** What can happen inside [icnsToPngDataUrl]'s [try] block: the
    converter fails, the temporary file cannot be read, it is read but
    cannot be deleted, or it is read and deleted. A buffer is the string
    of its bytes. *)
Inductive SipsOutcome :=
  | SipsFails
  | SipsUnreadable
  | SipsUnlinkFails (png : string)
  | SipsWrote (png : string).

(** [app.getFileIcon]: it throws, returns an empty image, or an image
    with the given data URL. *)
Inductive FileIcon :=
  | IconThrows
  | IconEmpty
  | IconImage (dataUrl : string).

Record World := {
  envHome : option string;
  tempDir : string;
  existsSync : string → bool;
  (** [None]: [fs.readdirSync] throws. *)
  readdirSync : string → option (list string);
  (** [plutil -convert json] followed by [JSON.parse], on a manifest
      path; [None]: one of the two throws. *)
  plutil : string → option PlistInfo;
  (** [sips] on an icon path and a temporary path. *)
  sips : string → string → SipsOutcome;
  getFileIcon : string → FileIcon;
  (** Whether [exec] of an [open ...] command line succeeds. *)
  openSucceeds : string → bool;
  (** The successive readings of [Date.now()] during one call. *)
  dateNow : nat → Z;
  (** [a.localeCompare(b)] *)
  localeCompare : string → string → Z;
  (** Completion order of the manifest reads that run concurrently in a
      batch of extensions: a lower rank completes first. *)
  plistRank : string → nat;
}.

Inductive Message :=
  | MsgDiscovering
  | MsgDiscovered (apps settings : nat) (ms : Z)
  | MsgCommandNotFound (cmd : string)
  | MsgFailedToExecute (cmd : string)
  | MsgCouldNotOpenSettings.

(** Observable effects: a process started with [exec], a line on the
    console, [app.quit()]. *)
Inductive Event :=
  | Exec (commandLine : string)
  | Console (msg : Message)
  | AppQuit.

(** The module-level variables, and the effects so far (latest last). *)
Record State := {
  iconCounter : nat;
  cachedCommands : option (list CommandInfo);
  cacheTimestamp : Z;
  events : list Event;
}.

Definition initialState : State :=
  {| iconCounter := 0; cachedCommands := None; cacheTimestamp := 0;
     events := [] |}.

Definition CACHE_TTL : Z := 120000.
Definition BATCH : nat := 15.

(** ** The state monad of the asynchronous functions *)

Definition M (A : Type) : Type := State → A * State.

#[global] Instance M_ret : MRet M := λ A x s, (x, s).
#[global] Instance M_bind : MBind M :=
  λ A B f m s, let '(a, s') := m s in f a s'.

Definition emit (e : Event) : M unit := λ s,
  (tt, {| iconCounter := iconCounter s;
          cachedCommands := cachedCommands s;
          cacheTimestamp := cacheTimestamp s;
          events := events s ++ [e] |}).

(** [++iconCounter] *)
Definition nextIconCounter : M nat := λ s,
  (S (iconCounter s),
   {| iconCounter := S (iconCounter s);
      cachedCommands := cachedCommands s;
      cacheTimestamp := cacheTimestamp s;
      events := events s |}).

Definition readCache : M (option (list CommandInfo) * Z) := λ s,
  ((cachedCommands s, cacheTimestamp s), s).

Definition writeCache (c : option (list CommandInfo)) (t : Z) : M unit := λ s,
  (tt, {| iconCounter := iconCounter s;
          cachedCommands := c;
          cacheTimestamp := t;
          events := events s |}).

(** [for (const x of l) ...] with a loop-carried value. *)
Fixpoint foldM {A B : Type} (f : B → A → M B) (b : B) (l : list A) : M B :=
  match l with
  | [] => mret b
  | x :: t => b' ← f b x; foldM f b' t
  end.

(** The callbacks of one [Promise.all(l.map(f))], run one after the
    other in the order of [l]. *)
Fixpoint forEachM {A B : Type} (f : A → M B) (l : list A) : M (list B) :=
  match l with
  | [] => mret []
  | x :: t => y ← f x; ys ← forEachM f t; mret (y :: ys)
  end.

(** ** Generic helpers: stable sort, batches, first occurrences *)

Fixpoint insertBy {A : Type} (le : A → A → bool) (x : A) (l : list A)
  : list A :=
  match l with
  | [] => [x]
  | y :: t => if le x y then x :: l else y :: insertBy le x t
  end.

(** A stable sort: equal elements keep their order, as
    [Array.prototype.sort] guarantees. *)
Definition sortBy {A : Type} (le : A → A → bool) (l : list A) : list A :=
  foldr (insertBy le) [] l.

Definition sortOn {A : Type} (f : A → nat) : list A → list A :=
  sortBy (λ a b, (f a <=? f b)%nat).

Fixpoint batchesFuel {A : Type} (fuel : nat) (l : list A) : list (list A) :=
  match fuel with
  | O => []
  | S fuel' =>
      match l with
      | [] => []
      | _ :: _ => take BATCH l :: batchesFuel fuel' (drop BATCH l)
      end
  end.

(** [for (i = 0; i < l.length; i += BATCH) l.slice(i, i + BATCH)] *)
Definition batches {A : Type} (l : list A) : list (list A) :=
  batchesFuel (length l) l.

(** [[...new Set(l)]]: the first occurrence of each element, in order. *)
Fixpoint uniq (l : list string) : list string :=
  match l with
  | [] => []
  | x :: t => x :: filter (λ y, y ≠ x) (uniq t)
  end.

(** [l.map((x, i) => [i, x])] *)
Definition indexed {A : Type} (l : list A) : list (nat * A) :=
  zip (seq 0 (length l)) l.

(** ** Buffers and data URLs *)

Definition base64Alphabet : string :=
  "ABCDEFGHIJKLMNOPQRSTUVWXYZabcdefghijklmnopqrstuvwxyz0123456789+/".

Definition base64Digit (n : N) : ascii :=
  match String.get (N.to_nat n) base64Alphabet with
  | Some c => c
  | None => "="%char
  end.

(** [buf.toString('base64')] *)
Fixpoint base64 (buf : string) : string :=
  match buf with
  | EmptyString => EmptyString
  | String a EmptyString =>
      let a := Js.code a in
      String (base64Digit (a / 4)) (String (base64Digit (a mod 4 * 16)) "==")
  | String a (String b EmptyString) =>
      let a := Js.code a in
      let b := Js.code b in
      String (base64Digit (a / 4))
        (String (base64Digit (a mod 4 * 16 + b / 16))
           (String (base64Digit (b mod 16 * 4)) "="))
  | String a (String b (String c rest)) =>
      let a := Js.code a in
      let b := Js.code b in
      let c := Js.code c in
      String (base64Digit (a / 4))
        (String (base64Digit (a mod 4 * 16 + b / 16))
           (String (base64Digit (b mod 16 * 4 + c / 64))
              (String (base64Digit (c mod 64)) (base64 rest))))
  end%N.

Definition pngDataUrl (buf : string) : string :=
  "data:image/png;base64," +:+ base64 buf.

Definition showNat (n : nat) : string :=
  DecimalString.NilZero.string_of_uint (Nat.to_uint n).

(** A double quote, and a text between double quotes. *)
Definition dq : string := String "034"%char EmptyString.
Definition quoted (s : string) : string := dq +:+ s +:+ dq.

(** ** Helpers of the registry *)

Definition sipsCommand (icnsPath tmpPng : string) : string :=
  "/usr/bin/sips -s format png -z 64 64 " +:+ quoted icnsPath +:+ " --out "
    +:+ quoted tmpPng +:+ " 2>/dev/null".

Definition plutilCommand (plistPath : string) : string :=
  "/usr/bin/plutil -convert json -o - " +:+ quoted plistPath
    +:+ " 2>/dev/null".

(** [icnsToPngDataUrl]: only a buffer of more than 100 bytes that was
    read and whose temporary file was deleted gives a data URL. *)
Definition tmpPngPath (w : World) (n : nat) : string :=
  Js.pathJoin [tempDir w; "launcher-icon-" +:+ showNat n +:+ ".png"].

Definition icnsToPngDataUrl (w : World) (icnsPath : string)
  : M (option string) :=
  n ← nextIconCounter;
  let tmpPng := tmpPngPath w n in
  emit (Exec (sipsCommand icnsPath tmpPng));;
  mret (match sips w icnsPath tmpPng with
        | SipsWrote png =>
            if (100 <? String.length png)%nat then Some (pngDataUrl png)
            else None
        | SipsFails | SipsUnreadable | SipsUnlinkFails _ => None
        end).

Definition resourcesDirOf (bundlePath : string) : string :=
  Js.pathJoin [bundlePath; "Contents"; "Resources"].

Definition plistPathOf (bundlePath : string) : string :=
  Js.pathJoin [bundlePath; "Contents"; "Info.plist"].

(** Step 1 of [getIconDataUrl]: the icon named by the manifest. *)
Definition iconFromManifest (w : World) (bundlePath : string)
  : M (option string) :=
  let resourcesDir := resourcesDirOf bundlePath in
  let plistPath := plistPathOf bundlePath in
  if existsSync w plistPath then
    emit (Exec (plutilCommand plistPath));;
    match plutil w plistPath with
    | None => mret None
    | Some info =>
        match Js.orElse (CFBundleIconFile info) (CFBundleIconName info) with
        | None => mret None
        | Some iconFileName =>
            if Js.truthy iconFileName then
              let icnsPath := Js.pathJoin [resourcesDir; iconFileName] in
              let icnsPath :=
                if negb (existsSync w icnsPath)
                   && negb (Js.endsWith iconFileName ".icns")
                then Js.pathJoin [resourcesDir; iconFileName +:+ ".icns"]
                else icnsPath in
              if existsSync w icnsPath then icnsToPngDataUrl w icnsPath
              else mret None
            else mret None
        end
    end
  else mret None.

Definition priorityNames : list string :=
  ["icon.icns"; "AppIcon.icns"; "SharedAppIcon.icns"].

(** The loop over [priorityNames]. *)
Fixpoint iconFromNames (w : World) (resourcesDir : string)
    (files names : list string) : M (option string) :=
  match names with
  | [] => mret None
  | name :: rest =>
      if bool_decide (name ∈ files) then
        result ← icnsToPngDataUrl w (Js.pathJoin [resourcesDir; name]);
        match result with
        | Some url => mret (Some url)
        | None => iconFromNames w resourcesDir files rest
        end
      else iconFromNames w resourcesDir files rest
  end.

(** Step 2 of [getIconDataUrl]: an icon file found in the resources. *)
Definition iconFromResources (w : World) (bundlePath : string)
  : M (option string) :=
  let resourcesDir := resourcesDirOf bundlePath in
  if existsSync w resourcesDir then
    match readdirSync w resourcesDir with
    | None => mret None
    | Some files =>
        result ← iconFromNames w resourcesDir files priorityNames;
        match result with
        | Some url => mret (Some url)
        | None =>
            match List.find (λ f, Js.endsWith f ".icns") files with
            | Some anyIcns =>
                if Js.truthy anyIcns
                then icnsToPngDataUrl w (Js.pathJoin [resourcesDir; anyIcns])
                else mret None
            | None => mret None
            end
        end
    end
  else mret None.

(** Step 3 of [getIconDataUrl]: the icon the system gives the file. *)
Definition iconFromSystem (w : World) (bundlePath : string) : option string :=
  match getFileIcon w bundlePath with
  | IconImage url => Some url
  | IconThrows | IconEmpty => None
  end.

Definition getIconDataUrl (w : World) (bundlePath : string)
  : M (option string) :=
  r1 ← iconFromManifest w bundlePath;
  match r1 with
  | Some url => mret (Some url)
  | None =>
      r2 ← iconFromResources w bundlePath;
      match r2 with
      | Some url => mret (Some url)
      | None => mret (iconFromSystem w bundlePath)
      end
  end.

Definition readPlistJson (w : World) (bundlePath : string)
  : M (option PlistInfo) :=
  let plistPath := plistPathOf bundlePath in
  if existsSync w plistPath then
    emit (Exec (plutilCommand plistPath));;
    mret (plutil w plistPath)
  else mret None.

(** ** Deduplication *)

(** A bundle that passed the filters of its source, before the [seen]
    set is consulted: position in its batch, title, key, target and
    bundle path. *)
Record Candidate := {
  position : nat;
  candTitle : string;
  candKey : string;
  candTarget : string;
  candBundle : string;
}.

(** The part of the callbacks of a batch that runs without suspension,
    in the order [l]: [if (seen.has(key)) return null; seen.add(key)].
    The callbacks that go on are returned with the new set. *)
Fixpoint claim {A : Type} (candidate : A → option Candidate)
    (seen : gset string) (l : list A) : gset string * list Candidate :=
  match l with
  | [] => (seen, [])
  | x :: t =>
      match candidate x with
      | None => claim candidate seen t
      | Some c =>
          if decide (candKey c ∈ seen) then claim candidate seen t
          else
            let '(seen', cs) := claim candidate ({[candKey c]} ∪ seen) t in
            (seen', c :: cs)
      end
  end.

(** [`app-${key.replace(/[^a-z0-9]+/g, '-')}`] and its settings twin:
    every maximal run of other characters becomes one dash. *)
Fixpoint dashRuns (inRun : bool) (s : string) : string :=
  match s with
  | EmptyString => EmptyString
  | String c t =>
      if Js.isLower c || Js.isDigit c then String c (dashRuns false t)
      else if inRun then dashRuns true t
      else String "-" (dashRuns true t)
  end.

Definition categoryPrefix (c : Category) : string :=
  match c with
  | CatApp => "app"
  | CatSettings => "settings"
  | CatSystem => "system"
  end.

Definition deriveId (c : Category) (key : string) : string :=
  categoryPrefix c +:+ "-" +:+ dashRuns false key.

(** ** Application discovery *)

Definition appDirs (w : World) : list string :=
  [ "/Applications";
    "/System/Applications";
    "/System/Applications/Utilities";
    Js.pathJoin [Js.orEmpty (envHome w); "Applications"] ].

Definition appCandidate (appPath : string) : option Candidate :=
  let name := Js.basename appPath ".app" in
  let key := Js.toLowerCase name in
  Some {| position := 0; candTitle := name; candKey := key;
          candTarget := appPath; candBundle := appPath |}.

Definition appItem (w : World) (c : Candidate) : M CommandInfo :=
  icon ← getIconDataUrl w (candBundle c);
  mret {| id := deriveId CatApp (candKey c);
          title := candTitle c;
          keywords := Some [candKey c];
          iconDataUrl := icon;
          category := CatApp;
          path := Some (candTarget c) |}.

(** The bundles with a given suffix in one directory; nothing when the
    directory is absent or cannot be read. *)
Definition bundlesIn (w : World) (suffix dir : string) : list string :=
  if existsSync w dir then
    match readdirSync w dir with
    | None => []
    | Some entries =>
        (λ entry, Js.pathJoin [dir; entry])
          <$> filter (λ entry, Js.endsWith entry suffix) entries
    end
  else [].

Definition appBatch (w : World) (acc : list CommandInfo * gset string)
    (batch : list string) : M (list CommandInfo * gset string) :=
  let '(results, seen) := acc in
  let '(seen', cs) := claim appCandidate seen batch in
  items ← forEachM (appItem w) cs;
  mret (results ++ items, seen').

Definition appDir (w : World) (acc : list CommandInfo * gset string)
    (dir : string) : M (list CommandInfo * gset string) :=
  foldM (appBatch w) acc (batches (bundlesIn w ".app" dir)).

Definition discoverApplications (w : World) : M (list CommandInfo) :=
  acc ← foldM (appDir w) ([], ∅) (appDirs w);
  mret (fst acc).

(** ** System Settings discovery *)

Definition settingsApps : list string :=
  [ "/System/Applications/System Settings.app";
    "/System/Applications/System Preferences.app" ].

(** The icon of the settings application, used when a pane has none. *)
Definition settingsAppIcon (w : World) : M (option string) :=
  match List.find (existsSync w) settingsApps with
  | Some p => getIconDataUrl w p
  | None => mret None
  end.

Definition extDir : string := "/System/Library/ExtensionKit/Extensions".

Definition knownSettingsExt : list string :=
  [ "Bluetooth.appex";
    "Appearance.appex";
    "PowerPreferences.appex";
    "Network.appex";
    "Screen Saver.appex";
    "Wallpaper.appex";
    "StartupDisk.appex";
    "Computer Name.appex";
    "CDs & DVDs Settings Extension.appex";
    "FamilySettings.appex";
    "ClassKitSettings.appex";
    "ClassroomSettings.appex";
    "CoverageSettings.appex";
    "DesktopSettings.appex" ].

Definition isSettingsAppex (f : string) : bool :=
  Js.endsWith f ".appex"
  && (Js.includes (Js.toLowerCase f) "settings"
      || Js.includes (Js.toLowerCase f) "preference"
      || Js.includes (Js.toLowerCase f) "pref").

Definition allAppex (w : World) : list string :=
  if existsSync w extDir then
    let files := default [] (readdirSync w extDir) in
    uniq (filter (λ f, isSettingsAppex f) files
          ++ filter (λ f, f ∈ knownSettingsExt) files)
  else [].

(** The callback of an extension from the point where its manifest has
    been read up to the look-up in [seen], on a manifest whose values
    are strings; on such a manifest no method call of the callback can
    fail. [appexCallback] below is the same code on arbitrary values. *)
Definition appexCandidate (x : nat * (string * option PlistInfo))
  : option Candidate :=
  let '(i, (file, read)) := x in
  match read with
  | None => None
  | Some info =>
      let displayName :=
        Js.orEmpty (Js.orElse (CFBundleDisplayName info) (CFBundleName info)) in
      let bundleId := Js.orEmpty (CFBundleIdentifier info) in
      if negb (Js.truthy displayName)
         || Js.includes displayName "Intents"
         || Js.includes displayName "Widget"
         || Js.endsWith displayName "DeviceExpert"
         || Js.includes bundleId "intents"
         || Js.includes bundleId "widget"
      then None
      else
        let displayName :=
          if Js.includes displayName "Extension"
             || Js.includes displayName "Settings"
          then cleanPaneName displayName
          else displayName in
        if negb (Js.truthy displayName)
           || (String.length displayName <? 2)%nat
        then None
        else
          Some {| position := i;
                  candTitle := displayName;
                  candKey := Js.toLowerCase displayName;
                  candTarget := bundleId;
                  candBundle := Js.pathJoin [extDir; file] |}
  end.

(** ** The extension callback on untyped manifests

    [plutil]'s output goes through [JSON.parse], so the value of a key
    can be any JSON value. The callback applies [includes] and
    [endsWith] to the display name and to the identifier outside any
    [try]: a string has both methods, an array has [includes] only (it
    looks for an element), and a boolean, a number or an object has
    neither, so that the call throws a [TypeError]. [null], [false], [0]
    and the empty string are falsy; arrays and objects are truthy. *)
Inductive Json :=
  | JString (s : string)
  | JArray (items : list Json)
  | JOther (truthy : bool).

Definition jsonTruthy (j : Json) : bool :=
  match j with
  | JString s => Js.truthy s
  | JArray _ => true
  | JOther b => b
  end.

(** [a || b] on property reads, where [None] is [undefined]. *)
Definition jsonOr (a b : option Json) : option Json :=
  match a with
  | Some j => if jsonTruthy j then a else b
  | None => b
  end.

(** [a || ''] *)
Definition jsonOrEmpty (a : option Json) : Json :=
  match a with
  | Some j => if jsonTruthy j then j else JString ""
  | None => JString ""
  end.

Definition arrayHasString (items : list Json) (x : string) : bool :=
  existsb (λ j, match j with
                | JString s => bool_decide (s = x)
                | _ => false
                end) items.

(** [v.includes(x)] and [v.endsWith(x)]; [None] is a [TypeError]. *)
Definition callIncludes (v : Json) (x : string) : option bool :=
  match v with
  | JString s => Some (Js.includes s x)
  | JArray items => Some (arrayHasString items x)
  | JOther _ => None
  end.

Definition callEndsWith (v : Json) (x : string) : option bool :=
  match v with
  | JString s => Some (Js.endsWith s x)
  | _ => None
  end.

(** [a || b] where [a] and [b] can throw: [b] is evaluated only when [a]
    is false. *)
Definition orTry (a b : option bool) : option bool :=
  match a with
  | None => None
  | Some true => Some true
  | Some false => b
  end.

(** The three keys the callback reads, as they come out of
    [JSON.parse]. *)
Record RawInfo := {
  rawDisplayName : option Json;
  rawName : option Json;
  rawIdentifier : option Json;
}.

(** A manifest whose values are strings, as a raw manifest. *)
Definition rawManifest (info : PlistInfo) : RawInfo :=
  {| rawDisplayName := JString <$> CFBundleDisplayName info;
     rawName := JString <$> CFBundleName info;
     rawIdentifier := JString <$> CFBundleIdentifier info |}.

(** How the callback leaves the part before the look-up in [seen]: it
    throws (which rejects [Promise.all] and with it the whole of
    [discoverSystemSettings]), it returns [null], or it goes on with a
    candidate, whose target is a string or, when the identifier is an
    array, that array. *)
Inductive CallbackResult :=
  | CallbackThrows
  | CallbackNull
  | CallbackCandidate (c : Candidate)
  | CallbackArrayTarget (displayName : string).

Definition appexCallback (i : nat) (file : string) (read : option RawInfo)
  : CallbackResult :=
  match read with
  | None => CallbackNull
  | Some info =>
      let displayName :=
        jsonOrEmpty (jsonOr (rawDisplayName info) (rawName info)) in
      let bundleId := jsonOrEmpty (rawIdentifier info) in
      match
        orTry (Some (negb (jsonTruthy displayName)))
          (orTry (callIncludes displayName "Intents")
             (orTry (callIncludes displayName "Widget")
                (orTry (callEndsWith displayName "DeviceExpert")
                   (orTry (callIncludes bundleId "intents")
                      (callIncludes bundleId "widget")))))
      with
      | None => CallbackThrows
      | Some true => CallbackNull
      | Some false =>
          match displayName with
          | JString displayName =>
              let displayName :=
                if Js.includes displayName "Extension"
                   || Js.includes displayName "Settings"
                then cleanPaneName displayName
                else displayName in
              if negb (Js.truthy displayName)
                 || (String.length displayName <? 2)%nat
              then CallbackNull
              else
                match bundleId with
                | JString bundleId =>
                    CallbackCandidate
                      {| position := i;
                         candTitle := displayName;
                         candKey := Js.toLowerCase displayName;
                         candTarget := bundleId;
                         candBundle := Js.pathJoin [extDir; file] |}
                | _ => CallbackArrayTarget displayName
                end
          | _ =>
              (* not reached: only a string has [endsWith] *)
              CallbackThrows
          end
      end
  end.

Definition settingsItem (w : World) (settingsIcon : option string)
    (c : Candidate) : M CommandInfo :=
  icon ← getIconDataUrl w (candBundle c);
  mret {| id := deriveId CatSettings (candKey c);
          title := candTitle c;
          keywords := Some ["system settings"; "preferences"; candKey c];
          iconDataUrl := Js.orElse icon settingsIcon;
          category := CatSettings;
          path := Some (candTarget c) |}.

(** One batch of extensions. The manifest reads start in the order of
    the batch; each callback resumes when its read completes, in the
    order of [plistRank], and runs up to its icon extraction without
    suspension; [Promise.all] returns the items in the order of the
    batch. *)
Definition appexBatch (w : World) (settingsIcon : option string)
    (acc : list CommandInfo * gset string) (batch : list string)
  : M (list CommandInfo * gset string) :=
  let '(results, seen) := acc in
  reads ← forEachM
    (λ file, read ← readPlistJson w (Js.pathJoin [extDir; file]);
             mret (file, read)) batch;
  let resumed :=
    sortOn (λ x, plistRank w (Js.pathJoin [extDir; fst (snd x)]))
      (indexed reads) in
  let '(seen', cs) := claim appexCandidate seen resumed in
  items ← forEachM
    (λ c, item ← settingsItem w settingsIcon c; mret (position c, item)) cs;
  mret (results ++ (snd <$> sortOn fst items), seen').

Definition prefDirs (w : World) : list string :=
  [ "/System/Library/PreferencePanes";
    "/Library/PreferencePanes";
    Js.pathJoin [Js.orEmpty (envHome w); "Library"; "PreferencePanes"] ].

Definition paneCandidate (panePath : string) : option Candidate :=
  let rawName := Js.basename panePath ".prefPane" in
  let displayName := cleanPaneName rawName in
  Some {| position := 0;
          candTitle := displayName;
          candKey := Js.toLowerCase displayName;
          candTarget := rawName;
          candBundle := panePath |}.

Definition paneBatch (w : World) (settingsIcon : option string)
    (acc : list CommandInfo * gset string) (batch : list string)
  : M (list CommandInfo * gset string) :=
  let '(results, seen) := acc in
  let '(seen', cs) := claim paneCandidate seen batch in
  items ← forEachM (settingsItem w settingsIcon) cs;
  mret (results ++ items, seen').

Definition paneDir (w : World) (settingsIcon : option string)
    (acc : list CommandInfo * gset string) (dir : string)
  : M (list CommandInfo * gset string) :=
  foldM (paneBatch w settingsIcon) acc (batches (bundlesIn w ".prefPane" dir)).

(** Source 1: the extensions. *)
Definition extensionSource (w : World) (settingsIcon : option string)
    (acc : list CommandInfo * gset string)
  : M (list CommandInfo * gset string) :=
  foldM (appexBatch w settingsIcon) acc (batches (allAppex w)).

(** Source 2: the preference panes. *)
Definition legacySource (w : World) (settingsIcon : option string)
    (acc : list CommandInfo * gset string)
  : M (list CommandInfo * gset string) :=
  foldM (paneDir w settingsIcon) acc (prefDirs w).

Definition discoverSystemSettings (w : World) : M (list CommandInfo) :=
  settingsIcon ← settingsAppIcon w;
  acc ← extensionSource w settingsIcon ([], ∅);
  acc ← legacySource w settingsIcon acc;
  mret (fst acc).

(** ** Command execution *)

(** [await execAsync(cmd)] inside a [try]: whether it resolved. *)
Definition tryOpen (w : World) (commandLine : string) : M bool :=
  emit (Exec commandLine);;
  mret (openSucceeds w commandLine).

(** [openAppByPath]: [false] when the promise is rejected. *)
Definition openAppByPath (w : World) (appPath : string) : M bool :=
  tryOpen w ("open " +:+ quoted appPath).

Definition settingsUrl (suffix : string) : string :=
  "open " +:+ quoted ("x-apple.systempreferences:" +:+ suffix).

(** The first attempt of [openSettingsPane], made only for an
    identifier that looks like a bundle identifier. *)
Definition openDirect (w : World) (identifier : string) : M bool :=
  if Js.startsWith identifier "com.apple."
  then tryOpen w (settingsUrl identifier)
  else mret false.

(** [openSettingsPane]: every failure is caught inside, so that the
    promise is always resolved. *)
Definition openSettingsPane (w : World) (identifier : string) : M unit :=
  direct ← openDirect w identifier;
  if direct : bool then mret tt else
  ventura ← tryOpen w (settingsUrl ("com.apple.settings." +:+ identifier));
  if ventura : bool then mret tt else
  older ← tryOpen w
    (settingsUrl ("com.apple.preference." +:+ Js.toLowerCase identifier));
  if older : bool then mret tt else
  settings ← tryOpen w ("open -a " +:+ quoted "System Settings");
  if settings : bool then mret tt else
  preferences ← tryOpen w ("open -a " +:+ quoted "System Preferences");
  if preferences : bool then mret tt else emit (Console MsgCouldNotOpenSettings).

(** ** Public interface *)

Definition systemCommands : list CommandInfo :=
  [ {| id := "system-quit-launcher";
       title := "Quit Launcher";
       keywords := Some ["exit"; "close"; "quit"; "stop"];
       iconDataUrl := None;
       category := CatSystem;
       path := None |} ].

(** [list.sort((a, b) => a.title.localeCompare(b.title))] *)
Definition sortByTitle (w : World) : list CommandInfo → list CommandInfo :=
  sortBy (λ a b, localeCompare w (title a) (title b) <=? 0).

(** The branch of [getAvailableCommands] behind the cache test. *)
Definition rebuild (w : World) (now : Z) : M (list CommandInfo) :=
  emit (Console MsgDiscovering);;
  let t0 := dateNow w 1 in
  apps ← discoverApplications w;
  settings ← discoverSystemSettings w;
  let apps := sortByTitle w apps in
  let settings := sortByTitle w settings in
  let commands := apps ++ settings ++ systemCommands in
  writeCache (Some commands) now;;
  emit (Console (MsgDiscovered (length apps) (length settings)
                   (dateNow w 2 - t0)));;
  mret commands.

Definition getAvailableCommands (w : World) : M (list CommandInfo) :=
  let now := dateNow w 0 in
  cache ← readCache;
  match cache with
  | (Some commands, timestamp) =>
      if now - timestamp <? CACHE_TTL then mret commands else rebuild w now
  | (None, _) => rebuild w now
  end.

Definition commandNotFound (i : string) : M bool :=
  emit (Console (MsgCommandNotFound i));;
  mret false.

(** The [try] block of [executeCommand]. *)
Definition dispatch (w : World) (i : string) (command : CommandInfo)
    (target : string) : M bool :=
  match category command with
  | CatApp =>
      opened ← openAppByPath w target;
      if opened : bool then mret true
      else emit (Console (MsgFailedToExecute i));; mret false
  | CatSettings => openSettingsPane w target;; mret true
  | CatSystem => mret true
  end.

Definition executeCommand (w : World) (i : string) : M bool :=
  if bool_decide (i = "system-quit-launcher") then
    emit AppQuit;;
    mret true
  else
    commands ← getAvailableCommands w;
    match List.find (λ c, bool_decide (id c = i)) commands with
    | None => commandNotFound i
    | Some command =>
        match path command with
        | None => commandNotFound i
        | Some target =>
            if Js.truthy target then dispatch w i command target
            else commandNotFound i
        end
    end.

Definition invalidateCache : M unit := writeCache None 0.

(** ** Example worlds *)

Definition lookupIn {A : Type} (d : A) (table : list (string * A))
    (k : string) : A :=
  match List.find (λ kv, bool_decide (fst kv = k)) table with
  | Some kv => snd kv
  | None => d
  end.

(** A consistent comparison of titles: the order of the character codes. *)
Definition codeCompare (a b : string) : Z :=
  if bool_decide (a = b) then 0 else if String.leb a b then -1 else 1.

Definition wifiPlist : string :=
  "/System/Library/ExtensionKit/Extensions/WifiSettings.appex/Contents/Info.plist".

Definition networkPlist : string :=
  "/System/Library/ExtensionKit/Extensions/Network.appex/Contents/Info.plist".

(** A machine with four applications (two of which differ only in a
    space and a dash, and two only in case), three extensions (one
    without a readable manifest, one without bundle identifier) and
    three preference panes; no icon can be extracted and no [open]
    command succeeds. *)
Definition demoWorld : World := {|
  envHome := Some "/Users/me";
  tempDir := "/tmp";
  existsSync := λ p,
    bool_decide (p ∈ ["/Applications"; extDir;
                      "/System/Library/PreferencePanes";
                      wifiPlist; networkPlist]);
  readdirSync :=
    lookupIn None
      [ ("/Applications",
         Some ["Foo Bar.app"; "Foo-Bar.app"; "readme.txt"; "foo bar.app";
               "Alpha.app"]);
        (extDir,
         Some ["WifiSettings.appex"; "Network.appex";
               "DisplaysSettings.appex"]);
        ("/System/Library/PreferencePanes",
         Some ["DateAndTime.prefPane"; "Network.prefPane";
               "Settings.prefPane"]) ];
  plutil :=
    lookupIn None
      [ (wifiPlist,
         Some {| CFBundleIconFile := None;
                 CFBundleIconName := None;
                 CFBundleDisplayName := Some "Wi-Fi";
                 CFBundleName := None;
                 CFBundleIdentifier :=
                   Some "com.apple.wifi-settings-extension" |});
        (networkPlist,
         Some {| CFBundleIconFile := None;
                 CFBundleIconName := None;
                 CFBundleDisplayName := None;
                 CFBundleName := Some "Network";
                 CFBundleIdentifier := None |}) ];
  sips := λ _ _, SipsFails;
  getFileIcon := λ _, IconEmpty;
  openSucceeds := λ _, false;
  dateNow := λ _, 1000;
  localeCompare := codeCompare;
  plistRank := λ _, O;
|}.

(** The same machine at another time, or with other [open] results. *)
Definition atTime (t : Z) (w : World) : World := {|
  envHome := envHome w;
  tempDir := tempDir w;
  existsSync := existsSync w;
  readdirSync := readdirSync w;
  plutil := plutil w;
  sips := sips w;
  getFileIcon := getFileIcon w;
  openSucceeds := openSucceeds w;
  dateNow := λ _, t;
  localeCompare := localeCompare w;
  plistRank := plistRank w;
|}.

Definition withOpen (ok : string → bool) (w : World) : World := {|
  envHome := envHome w;
  tempDir := tempDir w;
  existsSync := existsSync w;
  readdirSync := readdirSync w;
  plutil := plutil w;
  sips := sips w;
  getFileIcon := getFileIcon w;
  openSucceeds := ok;
  dateNow := dateNow w;
  localeCompare := localeCompare w;
  plistRank := plistRank w;
|}.

(** The state after a first request at time 5000. *)
Definition warmState : State :=
  (getAvailableCommands (atTime 5000 demoWorld) initialState).2.

(** ** The order of the attempts of [openSettingsPane], as specified *)

(** The command lines the executor may try for a settings target. *)
Definition settingsAttempts (identifier : string) : list string :=
  (if Js.startsWith identifier "com.apple."
   then [settingsUrl identifier] else [])
  ++ [ settingsUrl ("com.apple.settings." +:+ identifier);
       settingsUrl ("com.apple.preference." +:+ Js.toLowerCase identifier);
       "open -a " +:+ quoted "System Settings";
       "open -a " +:+ quoted "System Preferences" ].

(** The effects of trying them in order until one succeeds; only the
    failure of all of them is logged. *)
Fixpoint attemptsMade (ok : string → bool) (attempts : list string)
  : list Event :=
  match attempts with
  | [] => [Console MsgCouldNotOpenSettings]
  | commandLine :: rest =>
      Exec commandLine :: if ok commandLine then [] else attemptsMade ok rest
  end.

Definition withEvents (s : State) (es : list Event) : State :=
  {| iconCounter := iconCounter s;
     cachedCommands := cachedCommands s;
     cacheTimestamp := cacheTimestamp s;
     events := events s ++ es |}.

(** The example machine with every application directory absent. *)
Definition withoutApplications (w : World) : World := {|
  envHome := envHome w;
  tempDir := tempDir w;
  existsSync := λ p, if bool_decide (p ∈ appDirs w) then false
                     else existsSync w p;
  readdirSync := readdirSync w;
  plutil := plutil w;
  sips := sips w;
  getFileIcon := getFileIcon w;
  openSucceeds := openSucceeds w;
  dateNow := dateNow w;
  localeCompare := localeCompare w;
  plistRank := plistRank w;
|}.

(** ** Vocabulary of the properties *)

(** The order of two entries in a catalog sorted by title. *)
Definition TitleLe (w : World) (a b : CommandInfo) : Prop :=
  localeCompare w (title a) (title b) ≤ 0.

(** What [Array.prototype.sort] asks of its comparison to give a
    defined order: any two titles are comparable, transitively. *)
Definition ConsistentCollation (w : World) : Prop :=
  (∀ a b, localeCompare w a b ≤ 0 ∨ localeCompare w b a ≤ 0)
  ∧ (∀ a b c, localeCompare w a b ≤ 0 → localeCompare w b c ≤ 0 →
              localeCompare w a c ≤ 0).

(** [url] encodes a file that the converter wrote, of more than 100
    bytes, that was read and then deleted. *)
Definition Converted (w : World) (url : string) : Prop :=
  ∃ icnsPath tmpPng png,
    sips w icnsPath tmpPng = SipsWrote png
    ∧ (100 < String.length png)%nat
    ∧ url = pngDataUrl png.

(** ** Properties of the helpers *)

Definition keyOf (e : CommandInfo) : string := Js.toLowerCase (title e).

(** [m] returns a value that satisfies [P], from every state. *)
Definition returns {A : Type} (m : M A) (P : A → Prop) : Prop :=
  ∀ s, P (fst (m s)).

Lemma returns_ret {A : Type} (x : A) (P : A → Prop) :
  P x → returns (mret x) P.
Proof. intros HP s. exact HP. Qed.

Lemma returns_bind {A B : Type} (m : M A) (f : A → M B)
    (Q : A → Prop) (P : B → Prop) :
  returns m Q → (∀ a, Q a → returns (f a) P) → returns (m ≫= f) P.
Proof.
  intros Hm Hf s. unfold mbind, M_bind.
  specialize (Hm s). destruct (m s) as [a s']. simpl in Hm.
  apply Hf, Hm.
Qed.

Lemma returns_weaken {A : Type} (m : M A) (P Q : A → Prop) :
  returns m P → (∀ a, P a → Q a) → returns m Q.
Proof. intros Hm HPQ s. apply HPQ, Hm. Qed.

Lemma returns_foldM {A B : Type} (f : B → A → M B) (I : B → Prop) l :
  (∀ b x, I b → returns (f b x) I) →
  ∀ b, I b → returns (foldM f b l) I.
Proof.
  intros Hf. induction l as [|x t IH]; intros b Hb; simpl.
  - by apply returns_ret.
  - eapply returns_bind; [by apply Hf|]. intros b' Hb'. by apply IH.
Qed.

Lemma returns_forEachM {A B : Type} (f : A → M B) (R : A → B → Prop) l :
  (∀ x, returns (f x) (R x)) →
  returns (forEachM f l) (Forall2 R l).
Proof.
  intros Hf. induction l as [|x t IH]; simpl.
  - apply returns_ret. constructor.
  - eapply returns_bind; [apply Hf|]. intros y Hy.
    eapply returns_bind; [apply IH|]. intros ys Hys.
    apply returns_ret. by constructor.
Qed.

(** *** The stable sort *)

Lemma insertBy_Permutation {A : Type} (le : A → A → bool) x l :
  insertBy le x l ≡ₚ x :: l.
Proof.
  induction l as [|y t IH]; simpl; [done|].
  destruct (le x y); [done|]. rewrite IH. apply Permutation_swap.
Qed.

Lemma sortBy_Permutation {A : Type} (le : A → A → bool) l :
  sortBy le l ≡ₚ l.
Proof.
  induction l as [|x t IH]; simpl; [done|].
  rewrite insertBy_Permutation. by rewrite IH.
Qed.

Lemma insertBy_Sorted {A : Type} (le : A → A → bool) x l :
  (∀ a b, le a b = true ∨ le b a = true) →
  Sorted (λ a b, le a b = true) l →
  Sorted (λ a b, le a b = true) (insertBy le x l).
Proof.
  intros Htotal. induction 1 as [|y t Ht IH Hhd]; simpl.
  - by repeat constructor.
  - destruct (le x y) eqn:Hxy.
    + constructor; [by constructor|]. by constructor.
    + constructor; [done|].
      destruct (Htotal x y) as [Habs|Hyx]; [congruence|].
      destruct Hhd as [|z t' Hyz]; simpl; [by constructor|].
      destruct (le x z); by constructor.
Qed.

Lemma sortBy_Sorted {A : Type} (le : A → A → bool) l :
  (∀ a b, le a b = true ∨ le b a = true) →
  Sorted (λ a b, le a b = true) (sortBy le l).
Proof.
  intros Htotal. induction l as [|x t IH]; simpl; [constructor|].
  by apply insertBy_Sorted.
Qed.

(** *** Batches *)

Lemma batchesFuel_concat {A : Type} fuel (l : list A) :
  (length l ≤ fuel)%nat → concat (batchesFuel fuel l) = l.
Proof.
  revert l. induction fuel as [|fuel IH]; intros l Hlen.
  - destruct l; [done|simpl in Hlen; lia].
  - destruct l as [|x t]; [done|].
    change (take BATCH (x :: t) ++ concat (batchesFuel fuel (drop BATCH (x :: t)))
            = x :: t).
    rewrite IH; [apply take_drop|].
    rewrite length_drop. simpl in *. unfold BATCH. lia.
Qed.

(** The batches cut the list into consecutive pieces. *)
Lemma batches_concat {A : Type} (l : list A) : concat (batches l) = l.
Proof. by apply batchesFuel_concat. Qed.

Lemma returns_foldM_prefix {A B : Type} (f : B → A → M B)
    (I : list A → B → Prop) l :
  (∀ done x b, I done b → returns (f b x) (I (done ++ [x]))) →
  ∀ b, I [] b → returns (foldM f b l) (I l).
Proof.
  intros Hf.
  cut (∀ done b, I done b → returns (foldM f b l) (I (done ++ l))).
  { intros H b Hb. by apply (H []). }
  induction l as [|x t IH]; intros done b Hb; simpl.
  - apply returns_ret. by rewrite app_nil_r.
  - eapply returns_bind; [by apply Hf|]. intros b' Hb'.
    replace (done ++ x :: t) with ((done ++ [x]) ++ t)
      by (by rewrite <- app_assoc).
    by apply IH.
Qed.

(** *** The deduplicator *)

Lemma claim_spec {A : Type} (cand : A → option Candidate) l :
  ∀ seen seen' cs,
  claim cand seen l = (seen', cs) →
  NoDup (candKey <$> cs)
  ∧ (∀ c, c ∈ cs → (candKey c ∉ seen) ∧ ∃ x, x ∈ l ∧ cand x = Some c)
  ∧ (∀ k, k ∈ seen' ↔ k ∈ seen ∨ k ∈ candKey <$> cs)
  ∧ (∀ x c, x ∈ l → cand x = Some c → candKey c ∈ seen').
Proof.
  induction l as [|x t IH]; intros seen seen' cs Hclaim; simpl in Hclaim.
  - injection Hclaim as <- <-. split_and!.
    + constructor.
    + intros c Hc. by apply elem_of_nil in Hc.
    + intros k. rewrite fmap_nil, elem_of_nil. tauto.
    + intros y c Hy. by apply elem_of_nil in Hy.
  - destruct (cand x) as [c0|] eqn:Hx.
    + destruct (decide (candKey c0 ∈ seen)) as [Hin|Hnotin].
      * destruct (IH _ _ _ Hclaim) as (Hnd & Hcs & Hseen & Hall).
        split_and!; [done| | done |].
        -- intros c Hc. destruct (Hcs c Hc) as (? & y & ? & ?).
           split; [done|]. exists y. split; [by right|done].
        -- intros y c [->|Hy]%elem_of_cons Hyc; [|by eapply Hall].
           rewrite Hx in Hyc. injection Hyc as <-. apply Hseen. by left.
      * destruct (claim cand ({[candKey c0]} ∪ seen) t) as [seen1 cs1] eqn:Ht.
        injection Hclaim as <- <-.
        destruct (IH _ _ _ Ht) as (Hnd & Hcs & Hseen & Hall).
        split_and!.
        -- rewrite fmap_cons. constructor; [|done].
           intros (c & Hkey & Hc)%list_elem_of_fmap.
           destruct (Hcs c Hc) as (Hfresh & _). apply Hfresh.
           rewrite <- Hkey. set_solver.
        -- intros c [->|Hc]%elem_of_cons.
           ++ split; [done|]. exists x. split; [by left|done].
           ++ destruct (Hcs c Hc) as (Hfresh & y & ? & ?). split.
              ** intros ?. apply Hfresh. set_solver.
              ** exists y. split; [by right|done].
        -- intros k. rewrite Hseen, fmap_cons, elem_of_cons. set_solver.
        -- intros y c [->|Hy]%elem_of_cons Hyc; [|by eapply Hall].
           rewrite Hx in Hyc. injection Hyc as <-.
           apply Hseen. left. set_solver.
    + destruct (IH _ _ _ Hclaim) as (Hnd & Hcs & Hseen & Hall).
      split_and!; [done| | done |].
      * intros c Hc. destruct (Hcs c Hc) as (? & y & ? & ?).
        split; [done|]. exists y. split; [by right|done].
      * intros y c [->|Hy]%elem_of_cons Hyc; [congruence|by eapply Hall].
Qed.

(** The invariant of a discovery run: the keys of the collected entries
    are distinct and are exactly the set [seen]; every entry has the
    category of the run and the identifier derived from its key. *)
Definition Catalogued (cat : Category)
    (acc : list CommandInfo * gset string) : Prop :=
  NoDup (keyOf <$> acc.1)
  ∧ (∀ k, k ∈ acc.2 ↔ k ∈ keyOf <$> acc.1)
  ∧ Forall (λ e, category e = cat ∧ id e = deriveId cat (keyOf e)) acc.1.

(** What an item callback makes of a candidate. *)
Definition Built (cat : Category) (c : Candidate) (e : CommandInfo) : Prop :=
  title e = candTitle c ∧ category e = cat
  ∧ id e = deriveId cat (candKey c) ∧ path e = Some (candTarget c).

Definition Keyed {A : Type} (cand : A → option Candidate) : Prop :=
  ∀ x c, cand x = Some c → candKey c = Js.toLowerCase (candTitle c).

Lemma Catalogued_empty cat : Catalogued cat ([], ∅).
Proof.
  split_and!; simpl; [constructor| |constructor].
  intros k. rewrite elem_of_nil. set_solver.
Qed.

Lemma Built_keys {A : Type} (cand : A → option Candidate) cat (l : list A)
    cs items :
  Keyed cand →
  (∀ c, c ∈ cs → ∃ x, x ∈ l ∧ cand x = Some c) →
  Forall2 (Built cat) cs items →
  keyOf <$> items = candKey <$> cs.
Proof.
  intros Hkeyed Hfrom Hbuilt.
  induction Hbuilt as [|c e cs items (Ht & _) _ IH]; [done|].
  rewrite !fmap_cons. f_equal.
  - destruct (Hfrom c) as (x & _ & Hx); [by left|].
    unfold keyOf. rewrite Ht. symmetry. by eapply Hkeyed.
  - apply IH. intros c' Hc'. apply Hfrom. by right.
Qed.

Lemma Catalogued_extend {A : Type} (cand : A → option Candidate)
    cat results seen (l : list A) seen' cs items items' :
  Catalogued cat (results, seen) →
  claim cand seen l = (seen', cs) →
  Keyed cand →
  items ≡ₚ items' →
  Forall2 (Built cat) cs items' →
  Catalogued cat (results ++ items, seen')
  ∧ (∀ x c, x ∈ l → cand x = Some c → candKey c ∈ seen').
Proof.
  intros (Hnd & Hseen & Hwf) Hclaim Hkeyed Hperm Hbuilt. simpl in *.
  destruct (claim_spec _ _ _ _ _ Hclaim) as (Hnd' & Hcs & Hseen' & Hall).
  assert (keyOf <$> items' = candKey <$> cs) as Hkeys.
  { eapply Built_keys; [done| |done]. intros c Hc. by apply Hcs. }
  split; [|done]. split_and!; simpl.
  - rewrite Hperm, fmap_app, Hkeys. apply NoDup_app. split_and!; [done| |done].
    intros k Hk (c & -> & Hc)%list_elem_of_fmap.
    destruct (Hcs c Hc) as (Hfresh & _). apply Hfresh. by apply Hseen.
  - intros k. rewrite Hseen', Hseen, Hperm, fmap_app, elem_of_app, Hkeys. done.
  - rewrite Hperm. apply Forall_app. split; [done|].
    apply Forall_forall. intros e He.
    assert (∃ c, c ∈ cs ∧ Built cat c e) as (c & Hc & Ht & Hcat & Hid & _).
    { clear -Hbuilt He. induction Hbuilt as [|c e' cs items ? ? IH].
      - by apply elem_of_nil in He.
      - apply elem_of_cons in He as [->|He].
        + exists c. split; [by left|done].
        + destruct (IH He) as (c' & ? & ?). exists c'. split; [by right|done]. }
    split; [done|]. rewrite Hid. f_equal.
    destruct (Hcs c Hc) as (_ & x & _ & Hx).
    unfold keyOf. rewrite Ht. by eapply Hkeyed.
Qed.

(** A step of a discovery loop: the invariant is kept, the collected
    entries are only appended to, and the step covers its input. *)
Definition Grows (cat : Category) (covered : gset string → Prop)
    (acc acc' : list CommandInfo * gset string) : Prop :=
  Catalogued cat acc' ∧ (∃ ext, acc'.1 = acc.1 ++ ext) ∧ covered acc'.2.

Lemma Catalogued_seen_mono cat acc acc' ext :
  Catalogued cat acc → Catalogued cat acc' → acc'.1 = acc.1 ++ ext →
  acc.2 ⊆ acc'.2.
Proof.
  intros (_ & Hseen & _) (_ & Hseen' & _) Hext k Hk.
  apply Hseen'. rewrite Hext, fmap_app, elem_of_app. left. by apply Hseen.
Qed.

Lemma foldM_grows {X : Type}
    (f : list CommandInfo * gset string → X → M (list CommandInfo * gset string))
    cat (covered : X → gset string → Prop) l :
  (∀ x s1 s2, s1 ⊆ s2 → covered x s1 → covered x s2) →
  (∀ acc x, Catalogued cat acc →
            returns (f acc x) (Grows cat (covered x) acc)) →
  ∀ acc, Catalogued cat acc →
  returns (foldM f acc l)
    (Grows cat (λ seen, ∀ x, x ∈ l → covered x seen) acc).
Proof.
  intros Hmono Hstep acc Hacc.
  apply (returns_foldM_prefix f
    (λ done, Grows cat (λ seen, ∀ x, x ∈ done → covered x seen) acc)).
  - intros done x b (Hb & (ext & Hext) & Hcov).
    eapply returns_weaken; [by apply Hstep|].
    intros b' (Hb' & (ext' & Hext') & Hcov'). split_and!; [done| |].
    + exists (ext ++ ext'). by rewrite Hext', Hext, app_assoc.
    + intros y [Hy| ->%list_elem_of_singleton]%elem_of_app; [|done].
      eapply Hmono; [|by apply Hcov]. by eapply Catalogued_seen_mono.
  - split_and!; [done| |].
    + exists []. by rewrite app_nil_r.
    + intros x Hx. by apply elem_of_nil in Hx.
Qed.

(** *** The item callbacks *)

Lemma appItem_built w c : returns (appItem w c) (Built CatApp c).
Proof.
  intros s. unfold appItem, mbind, M_bind.
  by destruct (getIconDataUrl w (candBundle c) s).
Qed.

Lemma settingsItem_built w icon c :
  returns (settingsItem w icon c) (Built CatSettings c).
Proof.
  intros s. unfold settingsItem, mbind, M_bind.
  by destruct (getIconDataUrl w (candBundle c) s).
Qed.

Lemma appCandidate_keyed : Keyed appCandidate.
Proof.
  intros x c Hc. apply (inj Some) in Hc. rewrite <- Hc.
  cbn [candKey candTitle]. reflexivity.
Qed.

Lemma paneCandidate_keyed : Keyed paneCandidate.
Proof.
  intros x c Hc. apply (inj Some) in Hc. rewrite <- Hc.
  cbn [candKey candTitle]. reflexivity.
Qed.

Lemma appexCandidate_keyed : Keyed appexCandidate.
Proof.
  intros [i [file [info|]]] c Hc; simpl in Hc; [|done].
  repeat (match type of Hc with
          | (if ?b then _ else _) = _ => destruct b
          end; try discriminate Hc).
  apply (inj Some) in Hc. rewrite <- Hc. cbn [candKey candTitle]. reflexivity.
Qed.

(** *** The batches of the three sources *)

Definition appKey (appPath : string) : string :=
  Js.toLowerCase (Js.basename appPath ".app").

Definition paneKey (panePath : string) : string :=
  Js.toLowerCase (cleanPaneName (Js.basename panePath ".prefPane")).

Lemma appCandidate_key p :
  ∃ c, appCandidate p = Some c ∧ candKey c = appKey p.
Proof.
  unfold appCandidate, appKey. eexists. split; [reflexivity|].
  cbn [candKey]. reflexivity.
Qed.

Lemma paneCandidate_key p :
  ∃ c, paneCandidate p = Some c ∧ candKey c = paneKey p.
Proof.
  unfold paneCandidate, paneKey. eexists. split; [reflexivity|].
  cbn [candKey]. reflexivity.
Qed.

Lemma appBatch_grows w acc batch :
  Catalogued CatApp acc →
  returns (appBatch w acc batch)
    (Grows CatApp (λ seen, ∀ p, p ∈ batch → appKey p ∈ seen) acc).
Proof.
  intros Hacc. destruct acc as [results seen]. unfold appBatch.
  destruct (claim appCandidate seen batch) as [seen' cs] eqn:Hclaim.
  eapply returns_bind; [apply returns_forEachM, appItem_built|].
  intros items Hitems. apply returns_ret.
  destruct (Catalogued_extend appCandidate CatApp results seen batch seen' cs
              items items Hacc Hclaim appCandidate_keyed) as (Hcat & Hall);
    [done..|].
  split_and!; [done|by exists items|].
  intros p Hp. cbn [snd].
  destruct (appCandidate_key p) as (c & Hc & <-). exact (Hall p c Hp Hc).
Qed.

Lemma paneBatch_grows w icon acc batch :
  Catalogued CatSettings acc →
  returns (paneBatch w icon acc batch)
    (Grows CatSettings (λ seen, ∀ p, p ∈ batch → paneKey p ∈ seen) acc).
Proof.
  intros Hacc. destruct acc as [results seen]. unfold paneBatch.
  destruct (claim paneCandidate seen batch) as [seen' cs] eqn:Hclaim.
  eapply returns_bind; [apply returns_forEachM, settingsItem_built|].
  intros items Hitems. apply returns_ret.
  destruct (Catalogued_extend paneCandidate CatSettings results seen batch
              seen' cs items items Hacc Hclaim paneCandidate_keyed)
    as (Hcat & Hall); [done..|].
  split_and!; [done|by exists items|].
  intros p Hp. cbn [snd].
  destruct (paneCandidate_key p) as (c & Hc & <-). exact (Hall p c Hp Hc).
Qed.

Lemma Forall2_fmap_snd_built cat cs (items : list (nat * CommandInfo)) :
  Forall2 (λ c x, Built cat c x.2) cs items →
  Forall2 (Built cat) cs (snd <$> items).
Proof. induction 1; simpl; by constructor. Qed.

Lemma appexBatch_grows w icon acc batch :
  Catalogued CatSettings acc →
  returns (appexBatch w icon acc batch) (Grows CatSettings (λ _, True) acc).
Proof.
  intros Hacc. destruct acc as [results seen]. unfold appexBatch.
  apply (returns_bind _ _ (λ _, True)); [by intros s|].
  intros reads _.
  match goal with
  | |- context [claim appexCandidate seen ?l] =>
      destruct (claim appexCandidate seen l) as [seen' cs] eqn:Hclaim
  end.
  eapply returns_bind.
  { apply (returns_forEachM _ (λ c x, Built CatSettings c x.2)).
    intros c. eapply returns_bind; [apply settingsItem_built|].
    intros e He. by apply returns_ret. }
  intros items Hitems. apply returns_ret.
  edestruct (Catalogued_extend appexCandidate CatSettings results seen _ seen'
               cs (snd <$> sortOn fst items) (snd <$> items) Hacc Hclaim
               appexCandidate_keyed) as (Hcat & _).
  - unfold sortOn. by rewrite sortBy_Permutation.
  - by apply Forall2_fmap_snd_built.
  - split_and!; [done|by eexists|done].
Qed.

(** *** The discovery flows *)

Lemma elem_of_batches {A : Type} (l : list A) x :
  x ∈ l → ∃ batch, batch ∈ batches l ∧ x ∈ batch.
Proof.
  intros Hx. rewrite <- (batches_concat l) in Hx.
  apply list_elem_of_In, in_concat in Hx as (batch & Hb & Hx).
  exists batch. by rewrite !list_elem_of_In.
Qed.

Lemma appDir_grows w acc dir :
  Catalogued CatApp acc →
  returns (appDir w acc dir)
    (Grows CatApp
       (λ seen, ∀ p, p ∈ bundlesIn w ".app" dir → appKey p ∈ seen) acc).
Proof.
  intros Hacc. unfold appDir.
  eapply returns_weaken.
  - apply (foldM_grows (appBatch w) CatApp
             (λ batch seen, ∀ p, p ∈ batch → appKey p ∈ seen)); [| |done].
    + intros batch s1 s2 Hsub Hcov p Hp. by apply Hsub, Hcov.
    + intros acc' batch Hacc'. by apply appBatch_grows.
  - intros acc' (Hcat & Hext & Hcov). split_and!; [done..|].
    intros p (batch & Hb & Hp)%elem_of_batches. by eapply Hcov.
Qed.

Lemma paneDir_grows w icon acc dir :
  Catalogued CatSettings acc →
  returns (paneDir w icon acc dir)
    (Grows CatSettings
       (λ seen, ∀ p, p ∈ bundlesIn w ".prefPane" dir → paneKey p ∈ seen) acc).
Proof.
  intros Hacc. unfold paneDir.
  eapply returns_weaken.
  - apply (foldM_grows (paneBatch w icon) CatSettings
             (λ batch seen, ∀ p, p ∈ batch → paneKey p ∈ seen)); [| |done].
    + intros batch s1 s2 Hsub Hcov p Hp. by apply Hsub, Hcov.
    + intros acc' batch Hacc'. by apply paneBatch_grows.
  - intros acc' (Hcat & Hext & Hcov). split_and!; [done..|].
    intros p (batch & Hb & Hp)%elem_of_batches. by eapply Hcov.
Qed.

Lemma extensionSource_grows w icon acc :
  Catalogued CatSettings acc →
  returns (extensionSource w icon acc) (Grows CatSettings (λ _, True) acc).
Proof.
  intros Hacc. unfold extensionSource.
  eapply returns_weaken.
  - apply (foldM_grows (appexBatch w icon) CatSettings (λ _ _, True));
      [done| |done].
    intros acc' batch Hacc'. by apply appexBatch_grows.
  - intros acc' (Hcat & Hext & _). by split_and!.
Qed.

Definition PanesCovered (w : World) (seen : gset string) : Prop :=
  ∀ dir p, dir ∈ prefDirs w → p ∈ bundlesIn w ".prefPane" dir →
           paneKey p ∈ seen.

Lemma legacySource_grows w icon acc :
  Catalogued CatSettings acc →
  returns (legacySource w icon acc) (Grows CatSettings (PanesCovered w) acc).
Proof.
  intros Hacc. unfold legacySource.
  eapply returns_weaken.
  - apply (foldM_grows (paneDir w icon) CatSettings
             (λ dir seen, ∀ p, p ∈ bundlesIn w ".prefPane" dir →
                               paneKey p ∈ seen)); [| |done].
    + intros dir s1 s2 Hsub Hcov p Hp. by apply Hsub, Hcov.
    + intros acc' dir Hacc'. by apply paneDir_grows.
  - intros acc' (Hcat & Hext & Hcov). split_and!; [done..|].
    intros dir p Hdir Hp. by eapply Hcov.
Qed.

(** What a discovery flow returns: distinct keys, and entries of its
    category with derived identifiers. *)
Definition Discovered (cat : Category) (l : list CommandInfo) : Prop :=
  NoDup (keyOf <$> l)
  ∧ Forall (λ e, category e = cat ∧ id e = deriveId cat (keyOf e)) l.

Definition AppsCovered (w : World) (apps : list CommandInfo) : Prop :=
  ∀ dir p, dir ∈ appDirs w → p ∈ bundlesIn w ".app" dir →
           appKey p ∈ keyOf <$> apps.

Lemma discoverApplications_returns w :
  returns (discoverApplications w)
    (λ apps, Discovered CatApp apps ∧ AppsCovered w apps).
Proof.
  unfold discoverApplications.
  eapply returns_bind.
  - apply (foldM_grows (appDir w) CatApp
             (λ dir seen, ∀ p, p ∈ bundlesIn w ".app" dir → appKey p ∈ seen));
      [| |apply Catalogued_empty].
    + intros dir s1 s2 Hsub Hcov p Hp. by apply Hsub, Hcov.
    + intros acc dir Hacc. by apply appDir_grows.
  - intros acc ((Hnd & Hseen & Hwf) & _ & Hcov). apply returns_ret.
    split; [by split|].
    intros dir p Hdir Hp. apply Hseen. by eapply Hcov.
Qed.

Lemma discoverSystemSettings_returns w :
  returns (discoverSystemSettings w) (Discovered CatSettings).
Proof.
  unfold discoverSystemSettings.
  apply (returns_bind _ _ (λ _, True)); [by intros s|]. intros icon _.
  eapply returns_bind;
    [apply extensionSource_grows, Catalogued_empty|].
  intros acc1 (Hacc1 & _ & _).
  eapply returns_bind; [by apply legacySource_grows|].
  intros acc2 ((Hnd & _ & Hwf) & _ & _). apply returns_ret. by split.
Qed.

Lemma NoDup_fmap_eq {A B : Type} (f : A → B) (l : list A) x y :
  NoDup (f <$> l) → x ∈ l → y ∈ l → f x = f y → x = y.
Proof.
  induction l as [|z t IH]; intros Hnd Hx Hy Hf.
  - by apply elem_of_nil in Hx.
  - rewrite fmap_cons in Hnd. apply NoDup_cons in Hnd as [Hz Hnd].
    apply elem_of_cons in Hx as [->|Hx]; apply elem_of_cons in Hy as [->|Hy].
    + done.
    + destruct Hz. rewrite Hf. by apply list_elem_of_fmap_2.
    + destruct Hz. rewrite <- Hf. by apply list_elem_of_fmap_2.
    + by apply IH.
Qed.

(** ** Settings discovery: deduplication and source priority *)

(** C2. In the merged result of settings discovery no two entries have
    the same lower-case title. The entries of the extension source come
    first and are all kept; an entry of the legacy source is present
    only if no extension entry has its key, so that an entry whose key
    the extension source produced is the extension's entry. *)
Theorem settings_dedup_and_source_priority (w : World) (s : State) :
  let icon := (settingsAppIcon w s).1 in
  let fromExtensions :=
    (extensionSource w icon ([], ∅) (settingsAppIcon w s).2).1.1 in
  let merged := (discoverSystemSettings w s).1 in
  NoDup ((λ e, Js.toLowerCase (title e)) <$> merged)
  ∧ (∃ fromLegacy,
       merged = fromExtensions ++ fromLegacy
       ∧ ∀ e, e ∈ fromLegacy →
              Js.toLowerCase (title e)
                ∉ (λ e, Js.toLowerCase (title e)) <$> fromExtensions)
  ∧ (∀ e1 e, e1 ∈ fromExtensions → e ∈ merged →
             Js.toLowerCase (title e) = Js.toLowerCase (title e1) → e = e1).
Proof.
  intros icon fromExtensions merged.
  assert (NoDup (keyOf <$> merged)) as Hnd.
  { apply (discoverSystemSettings_returns w s). }
  assert (∃ fromLegacy, merged = fromExtensions ++ fromLegacy)
    as (fromLegacy & Hmerged).
  { subst merged fromExtensions icon.
    unfold discoverSystemSettings, mbind, M_bind, mret, M_ret.
    destruct (settingsAppIcon w s) as [icon s0]. simpl.
    pose proof (extensionSource_grows w icon ([], ∅) (Catalogued_empty _) s0)
      as (Hacc1 & _ & _).
    destruct (extensionSource w icon ([], ∅) s0) as [acc1 s1]. simpl in *.
    pose proof (legacySource_grows w icon acc1 Hacc1 s1) as (_ & Hext & _).
    destruct (legacySource w icon acc1 s1) as [acc2 s2]. simpl in *.
    exact Hext. }
  split_and!; [done| |].
  - exists fromLegacy. split; [done|]. intros e He Hin.
    rewrite Hmerged, fmap_app in Hnd.
    apply NoDup_app in Hnd as (_ & Hdisj & _).
    apply (Hdisj _ Hin). by apply (list_elem_of_fmap_2 keyOf).
  - intros e1 e He1 He Hkey. eapply (NoDup_fmap_eq keyOf); [done..| |done].
    rewrite Hmerged. apply elem_of_app. by left.
Qed.

(** ** The cache *)

(** The catalog a rebuild computes from state [s]: the two discovery
    flows one after the other, each result sorted by title, and the
    system commands behind them. *)
Definition appsFound (w : World) (s : State) : list CommandInfo * State :=
  discoverApplications w (emit (Console MsgDiscovering) s).2.

Definition settingsFound (w : World) (s : State)
  : list CommandInfo * State :=
  discoverSystemSettings w (appsFound w s).2.

Definition catalogOf (w : World) (s : State) : list CommandInfo :=
  sortByTitle w (appsFound w s).1 ++ sortByTitle w (settingsFound w s).1
    ++ systemCommands.

Lemma rebuild_unfold w now s :
  rebuild w now s =
  (catalogOf w s,
   {| iconCounter := iconCounter (settingsFound w s).2;
      cachedCommands := Some (catalogOf w s);
      cacheTimestamp := now;
      events :=
        events (settingsFound w s).2
        ++ [Console (MsgDiscovered
                       (length (sortByTitle w (appsFound w s).1))
                       (length (sortByTitle w (settingsFound w s).1))
                       (dateNow w 2 - dateNow w 1))] |}).
Proof.
  unfold catalogOf, settingsFound, appsFound, rebuild, mbind, M_bind.
  destruct (emit (Console MsgDiscovering) s) as [[] s1]. simpl.
  destruct (discoverApplications w s1) as [apps s2]. simpl.
  destruct (discoverSystemSettings w s2) as [settings s3]. simpl.
  reflexivity.
Qed.

Lemma getAvailableCommands_hit w s commands :
  cachedCommands s = Some commands →
  dateNow w 0 - cacheTimestamp s < CACHE_TTL →
  getAvailableCommands w s = (commands, s).
Proof.
  intros Hc Hfresh. unfold getAvailableCommands, mbind, M_bind, readCache.
  rewrite Hc. by rewrite (proj2 (Z.ltb_lt _ _) Hfresh).
Qed.

Lemma getAvailableCommands_miss w s :
  cachedCommands s = None ∨ CACHE_TTL ≤ dateNow w 0 - cacheTimestamp s →
  getAvailableCommands w s = rebuild w (dateNow w 0) s.
Proof.
  intros Hmiss. unfold getAvailableCommands, mbind, M_bind, readCache.
  destruct (cachedCommands s) as [commands|]; [|done].
  destruct Hmiss as [|Hold]; [done|].
  by rewrite (proj2 (Z.ltb_ge _ _) Hold).
Qed.

(** C3, as amended. The window of the cache starts at the timestamp the
    last rebuild stored, which is the clock reading of the request that
    rebuilt. After any request the cache holds what it returned. A next
    request less than [CACHE_TTL] after the stored timestamp returns the
    same catalog and leaves the state as it is: no event, no discovery.
    A next request [CACHE_TTL] or more after it rebuilds: it returns and
    stores the catalog discovered in its own world and stamps it with
    its own clock reading. When the first request itself rebuilt, the
    stored timestamp is that request's clock reading; when it was served
    from the cache, the timestamp is the older one it found. *)
Theorem cache_window_from_last_rebuild (w1 w2 : World) (s : State) :
  let first := getAvailableCommands w1 s in
  let second := getAvailableCommands w2 first.2 in
  cachedCommands first.2 = Some first.1
  ∧ (dateNow w2 0 - cacheTimestamp first.2 < CACHE_TTL →
     second = first)
  ∧ (CACHE_TTL ≤ dateNow w2 0 - cacheTimestamp first.2 →
     second.1 = catalogOf w2 first.2
     ∧ cachedCommands second.2 = Some (catalogOf w2 first.2)
     ∧ cacheTimestamp second.2 = dateNow w2 0)
  ∧ (cachedCommands s = None ∨ CACHE_TTL ≤ dateNow w1 0 - cacheTimestamp s →
     cacheTimestamp first.2 = dateNow w1 0)
  ∧ (is_Some (cachedCommands s) →
     dateNow w1 0 - cacheTimestamp s < CACHE_TTL →
     first.2 = s).
Proof.
  intros first second.
  assert (cachedCommands first.2 = Some first.1) as Hheld.
  { subst first.
    destruct (cachedCommands s) as [commands|] eqn:Hc.
    - destruct (Z.lt_ge_cases (dateNow w1 0 - cacheTimestamp s) CACHE_TTL).
      + by rewrite (getAvailableCommands_hit w1 s commands).
      + rewrite getAvailableCommands_miss by (by right).
        by rewrite rebuild_unfold.
    - rewrite getAvailableCommands_miss by (by left).
      by rewrite rebuild_unfold. }
  split_and!; [done| | | |].
  - intros Hfresh. subst second.
    rewrite (getAvailableCommands_hit w2 first.2 first.1); [|done..].
    by destruct first.
  - intros Hold. subst second.
    rewrite getAvailableCommands_miss by (by right).
    by rewrite rebuild_unfold.
  - intros Hmiss. subst first.
    rewrite getAvailableCommands_miss by done. by rewrite rebuild_unfold.
  - intros [commands Hc] Hfresh. subst first.
    by rewrite (getAvailableCommands_hit w1 s commands).
Qed.

(** C3, the claim as stated fails: a request at 100000 ms is served from
    the cache filled at 5000 ms; the next request comes 30000 ms later,
    inside the 120000 ms counted from the first request, and still runs
    the discovery again, because 125000 ms have passed since the rebuild. *)
Lemma cache_window_is_not_sliding :
  let w1 := atTime 100000 demoWorld in
  let w2 := atTime 130000 demoWorld in
  let first := getAvailableCommands w1 warmState in
  let second := getAvailableCommands w2 first.2 in
  dateNow w2 0 - dateNow w1 0 < CACHE_TTL
  ∧ first.2 = warmState
  ∧ cacheTimestamp first.2 = 5000
  ∧ events second.2
    = events first.2
      ++ Console MsgDiscovering
         :: Exec (plutilCommand wifiPlist) :: Exec (plutilCommand networkPlist)
         :: Exec (plutilCommand wifiPlist) :: Exec (plutilCommand networkPlist)
         :: [Console (MsgDiscovered 3 4 0)]
  ∧ cacheTimestamp second.2 = 130000.
Proof. vm_compute. by split_and!. Qed.

(** ** Command execution *)

Lemma openSettingsPane_trace w identifier s :
  openSettingsPane w identifier s
  = (tt, withEvents s
           (attemptsMade (openSucceeds w) (settingsAttempts identifier))).
Proof.
  unfold openSettingsPane, openDirect, settingsAttempts, tryOpen, withEvents,
    mbind, M_bind, mret, M_ret, emit.
  destruct s as [n c t es].
  destruct (Js.startsWith identifier "com.apple."); simpl;
    repeat (match goal with
            | |- context [openSucceeds w ?c] => destruct (openSucceeds w c)
            end; simpl);
    rewrite <- ?app_assoc; reflexivity.
Qed.

(** C9. The quit command is answered before the catalog is consulted:
    from every state the call returns [true], its only effect is
    [app.quit()], and the cache slot, its timestamp and the icon counter
    are what they were. *)
Theorem quit_bypasses_catalog (w : World) (s : State) :
  executeCommand w "system-quit-launcher" s = (true, withEvents s [AppQuit])
  ∧ cachedCommands (executeCommand w "system-quit-launcher" s).2
    = cachedCommands s
  ∧ cacheTimestamp (executeCommand w "system-quit-launcher" s).2
    = cacheTimestamp s.
Proof. by split_and!. Qed.

Lemma executeCommand_unfold w i s :
  i ≠ "system-quit-launcher" →
  executeCommand w i s =
  let loaded := getAvailableCommands w s in
  match List.find (λ c, bool_decide (id c = i)) loaded.1 with
  | None => commandNotFound i loaded.2
  | Some command =>
      match path command with
      | None => commandNotFound i loaded.2
      | Some target =>
          if Js.truthy target then dispatch w i command target loaded.2
          else commandNotFound i loaded.2
      end
  end.
Proof.
  intros Hi. unfold executeCommand.
  case_bool_decide; [done|].
  unfold mbind, M_bind.
  destruct (getAvailableCommands w s) as [commands s']. cbn [fst snd].
  destruct (List.find _ commands) as [command|]; [|done].
  destruct (path command) as [target|]; [|done].
  by destruct (Js.truthy target).
Qed.

(** C10. An identifier other than the quit command that resolves to an
    entry without target, or with the empty string as target, is
    answered [false]; after the catalog was obtained the only effect is
    the message that the command was not found: no process is started.
    An extension whose manifest has no bundle identifier gets the empty
    string as target, so its entry is of that kind. *)
Theorem missing_target_is_never_dispatched
    (w : World) (s : State) (i : string) (command : CommandInfo) :
  i ≠ "system-quit-launcher" →
  List.find (λ c, bool_decide (id c = i)) (getAvailableCommands w s).1
    = Some command →
  path command = None ∨ path command = Some "" →
  executeCommand w i s
  = (false,
     withEvents (getAvailableCommands w s).2 [Console (MsgCommandNotFound i)])
  ∧ (∀ pos file info c icon s',
       CFBundleIdentifier info = None →
       appexCandidate (pos, (file, Some info)) = Some c →
       path (settingsItem w icon c s').1 = Some "").
Proof.
  intros Hi Hfind Hpath. split.
  - rewrite executeCommand_unfold by done. cbn zeta. rewrite Hfind.
    by destruct Hpath as [-> | ->].
  - intros pos file info c icon s' Hid Hc.
    destruct (settingsItem_built w icon c s') as (_ & _ & _ & ->).
    f_equal. simpl in Hc. rewrite Hid in Hc.
    repeat (match type of Hc with
            | (if ?b then _ else _) = _ => destruct b
            end; try discriminate Hc).
    all: apply (inj Some) in Hc; by rewrite <- Hc.
Qed.

(** C10, at work: the extension [Network.appex] of the example machine
    has no bundle identifier; its entry cannot be executed. *)
Lemma missing_target_witness :
  executeCommand demoWorld "settings-network" initialState
  = (false,
     withEvents (getAvailableCommands demoWorld initialState).2
       [Console (MsgCommandNotFound "settings-network")]).
Proof.
  refine (proj1 (missing_target_is_never_dispatched demoWorld initialState
                   "settings-network"
                   {| id := "settings-network";
                      title := "Network";
                      keywords :=
                        Some ["system settings"; "preferences"; "network"];
                      iconDataUrl := None;
                      category := CatSettings;
                      path := Some "" |} _ _ _)).
  - discriminate.
  - vm_compute. reflexivity.
  - right. reflexivity.
Defined.

(** The answer of [executeCommand] for an identifier other than the
    quit command, case by case: [false] when no entry has it, when the
    entry found has no target or an empty one, and when the entry is an
    application whose [open] command fails; [true] for an application
    whose [open] command succeeds. For a settings entry with a target
    the attempts are made in the specified order until one succeeds, and
    the answer does not depend on them. *)
Theorem executeCommand_answer (w : World) (s : State) (i : string) :
  i ≠ "system-quit-launcher" →
  let loaded := getAvailableCommands w s in
  let outcome := executeCommand w i s in
  match List.find (λ c, bool_decide (id c = i)) loaded.1 with
  | None => outcome.1 = false
  | Some command =>
      match path command with
      | None => outcome.1 = false
      | Some target =>
          if Js.truthy target then
            match category command with
            | CatApp =>
                outcome.1 = openSucceeds w ("open " +:+ quoted target)
            | CatSettings =>
                outcome
                = (true,
                   withEvents loaded.2
                     (attemptsMade (openSucceeds w) (settingsAttempts target)))
            | CatSystem => outcome.1 = true
            end
          else outcome.1 = false
      end
  end.
Proof.
  intros Hi loaded outcome. subst outcome.
  rewrite executeCommand_unfold by done. cbn zeta. fold loaded.
  destruct (List.find _ loaded.1) as [command|]; [|done].
  destruct (path command) as [target|]; [|done].
  destruct (Js.truthy target); [|done].
  unfold dispatch. destruct (category command); [| |done].
  - unfold openAppByPath, tryOpen, mbind, M_bind, mret, M_ret. simpl.
    by destruct (openSucceeds w _).
  - unfold mbind, M_bind. by rewrite openSettingsPane_trace.
Qed.

(** [executeCommand_answer] on the example machine, where the identifier
    is known and names a settings entry with a target. *)
Lemma executeCommand_answer_witness :
  executeCommand demoWorld "settings-wi-fi" initialState
  = (true,
     withEvents (getAvailableCommands demoWorld initialState).2
       (attemptsMade (openSucceeds demoWorld)
          (settingsAttempts "com.apple.wifi-settings-extension"))).
Proof.
  exact (executeCommand_answer demoWorld initialState "settings-wi-fi"
           ltac:(discriminate)).
Defined.

(** C1. A dispatch whose every attempt failed is answered [true]: on
    the example machine every [open] command fails; for the Wi-Fi pane
    all five attempts are made and fail, the failure of the last one is
    only logged, and the answer is [true], where the specification asks
    for [false]. On the same machine the application branch answers
    [false] for its failed [open]. *)
Lemma settings_exhaustion_answers_true :
  (∀ commandLine, openSucceeds demoWorld commandLine = false)
  ∧ (executeCommand demoWorld "settings-wi-fi" initialState).1 = true
  ∧ events (executeCommand demoWorld "settings-wi-fi" initialState).2
    = events (getAvailableCommands demoWorld initialState).2
      ++ (Exec <$> settingsAttempts "com.apple.wifi-settings-extension")
      ++ [Console MsgCouldNotOpenSettings]
  ∧ (executeCommand demoWorld "app-alpha" initialState).1 = false
  ∧ events (executeCommand demoWorld "app-alpha" initialState).2
    = events (getAvailableCommands demoWorld initialState).2
      ++ [Exec ("open " +:+ quoted "/Applications/Alpha.app");
          Console (MsgFailedToExecute "app-alpha")].
Proof. split; [done|]. vm_compute. by split_and!. Qed.

(** ** The name normalizer *)

(** C4. The normalizer is a function of its argument alone: it reads
    neither the world nor the state, so equal inputs give equal titles;
    and it maps the two reference inputs to the specified titles. *)
Theorem cleanPaneName_reference_titles :
  cleanPaneName "DateAndTime" = "Date & Time"
  ∧ cleanPaneName "DesktopScreenEffectsPref" = "Desktop & Screen Saver"
  ∧ (∀ raw1 raw2 : string,
       raw1 = raw2 → cleanPaneName raw1 = cleanPaneName raw2).
Proof.
  split_and!; [by vm_compute..|]. by intros raw1 raw2 ->.
Qed.

(** ** The icon extractor *)

Lemma icnsToPngDataUrl_returns w icnsPath :
  returns (icnsToPngDataUrl w icnsPath)
    (λ r, ∀ url, r = Some url → Converted w url).
Proof.
  intros s url. unfold icnsToPngDataUrl, mbind, M_bind, nextIconCounter.
  cbn [fst snd emit mret M_ret].
  destruct (sips w icnsPath _) as [| | |png] eqn:Hsips; try done.
  destruct (100 <? String.length png)%nat eqn:Hlen; [|done].
  intros [= <-]. exists icnsPath, (tmpPngPath w (S (iconCounter s))), png.
  split_and!; [done| |done]. by apply Nat.ltb_lt.
Qed.

Lemma iconFromManifest_returns w bundlePath :
  returns (iconFromManifest w bundlePath)
    (λ r, ∀ url, r = Some url → Converted w url).
Proof.
  unfold iconFromManifest.
  destruct (existsSync w (plistPathOf bundlePath)); [|by intros s url].
  apply (returns_bind _ _ (λ _, True)); [by intros s|]. intros _ _.
  destruct (plutil w _) as [info|]; [|by intros s url].
  destruct (Js.orElse _ _) as [iconFileName|]; [|by intros s url].
  destruct (Js.truthy iconFileName); [|by intros s url].
  cbn zeta.
  match goal with
  | |- returns (if existsSync w ?p then _ else _) _ =>
      destruct (existsSync w p); [apply icnsToPngDataUrl_returns|]
  end.
  by intros s url.
Qed.

Lemma iconFromNames_returns w resourcesDir files names :
  returns (iconFromNames w resourcesDir files names)
    (λ r, ∀ url, r = Some url → Converted w url).
Proof.
  induction names as [|name rest IH]; simpl; [by intros s url|].
  case_bool_decide; [|done].
  eapply returns_bind; [apply icnsToPngDataUrl_returns|].
  intros [url'|] Hr; [|done]. apply returns_ret.
  intros url [= <-]. by apply Hr.
Qed.

Lemma iconFromResources_returns w bundlePath :
  returns (iconFromResources w bundlePath)
    (λ r, ∀ url, r = Some url → Converted w url).
Proof.
  unfold iconFromResources.
  destruct (existsSync w (resourcesDirOf bundlePath)); [|by intros s url].
  destruct (readdirSync w _) as [files|]; [|by intros s url].
  eapply returns_bind; [apply iconFromNames_returns|].
  intros [url'|] Hr.
  - apply returns_ret. intros url [= <-]. by apply Hr.
  - destruct (List.find _ files) as [anyIcns|]; [|by intros s url].
    destruct (Js.truthy anyIcns); [|by intros s url].
    apply icnsToPngDataUrl_returns.
Qed.

(** C8. The icon extractor returns a data URL only when a step fully
    succeeded: either the converter wrote a file of more than 100 bytes
    that was then read and deleted, or the system gave a non-empty icon
    for the bundle. When the three steps give nothing, the call returns
    nothing (and is a value, not an error). A converted file of 100
    bytes or fewer is rejected. *)
Theorem icon_only_from_a_successful_step
    (w : World) (bundlePath : string) (s : State) :
  (∀ url, (getIconDataUrl w bundlePath s).1 = Some url →
          Converted w url ∨ getFileIcon w bundlePath = IconImage url)
  ∧ (let step1 := iconFromManifest w bundlePath s in
     let step2 := iconFromResources w bundlePath step1.2 in
     step1.1 = None → step2.1 = None → iconFromSystem w bundlePath = None →
     getIconDataUrl w bundlePath s = (None, step2.2))
  ∧ (∀ icnsPath png,
       sips w icnsPath (tmpPngPath w (S (iconCounter s))) = SipsWrote png →
       (String.length png ≤ 100)%nat →
       (icnsToPngDataUrl w icnsPath s).1 = None).
Proof.
  split_and!.
  - revert s. change (returns (getIconDataUrl w bundlePath)
      (λ r, ∀ url, r = Some url →
                   Converted w url ∨ getFileIcon w bundlePath = IconImage url)).
    unfold getIconDataUrl.
    eapply returns_bind; [apply iconFromManifest_returns|].
    intros [url1|] H1.
    { apply returns_ret. intros url [= <-]. left. by apply H1. }
    eapply returns_bind; [apply iconFromResources_returns|].
    intros [url2|] H2.
    { apply returns_ret. intros url [= <-]. left. by apply H2. }
    apply returns_ret. intros url Hurl. right.
    unfold iconFromSystem in Hurl.
    destruct (getFileIcon w bundlePath); congruence.
  - intros step1 step2 H1 H2 H3. subst step2 step1.
    unfold getIconDataUrl, mbind, M_bind, mret, M_ret.
    destruct (iconFromManifest w bundlePath s) as [r1 s1]. simpl in *.
    subst r1.
    destruct (iconFromResources w bundlePath s1) as [r2 s2]. simpl in *.
    subst r2. by rewrite H3.
  - intros icnsPath png Hsips Hlen.
    unfold icnsToPngDataUrl, mbind, M_bind, nextIconCounter.
    cbn [fst snd emit mret M_ret]. rewrite Hsips.
    by rewrite (proj2 (Nat.ltb_ge _ _) Hlen).
Qed.

(** ** Identifiers within a catalog *)

Lemma catalogOf_discovered w s :
  Discovered CatApp (appsFound w s).1
  ∧ Discovered CatSettings (settingsFound w s).1.
Proof.
  split.
  - apply (discoverApplications_returns w).
  - apply (discoverSystemSettings_returns w).
Qed.

Lemma Discovered_sorted cat w l :
  Discovered cat l → Discovered cat (sortByTitle w l).
Proof.
  intros [Hnd Hwf]. unfold sortByTitle. split.
  - by rewrite sortBy_Permutation.
  - by rewrite sortBy_Permutation.
Qed.

Lemma Discovered_system : Discovered CatSystem systemCommands.
Proof.
  split.
  - apply NoDup_singleton.
  - by repeat constructor.
Qed.

Lemma Discovered_pairs cat l :
  Discovered cat l →
  NoDup ((λ e, (category e, keyOf e)) <$> l)
  ∧ ∀ p, p ∈ (λ e, (category e, keyOf e)) <$> l → p.1 = cat.
Proof.
  intros [Hnd Hwf]. split.
  - apply (NoDup_fmap_1 snd).
    rewrite <- list_fmap_compose. exact Hnd.
  - intros p (e & -> & He)%list_elem_of_fmap.
    rewrite Forall_forall in Hwf. by destruct (Hwf e He).
Qed.

Lemma deriveId_inj c1 c2 k1 k2 :
  deriveId c1 k1 = deriveId c2 k2 →
  c1 = c2 ∧ dashRuns false k1 = dashRuns false k2.
Proof.
  unfold deriveId.
  destruct c1, c2; cbv [categoryPrefix String.append]; intros H;
    by simplify_eq.
Qed.

(** C7, as amended. In the catalog a rebuild computes, the identifier of
    every entry is a function of its category and of its key, the
    lower-case title; no two entries have the same category and the same
    key. Two entries have the same identifier exactly when they have the
    same category and their keys differ only inside runs of characters
    other than lower-case letters and digits. *)
Theorem ids_derived_and_keys_unique (w : World) (s : State) :
  Forall (λ e, id e = deriveId (category e) (Js.toLowerCase (title e)))
    (catalogOf w s)
  ∧ NoDup ((λ e, (category e, Js.toLowerCase (title e))) <$> catalogOf w s)
  ∧ (∀ e1 e2, e1 ∈ catalogOf w s → e2 ∈ catalogOf w s →
       (id e1 = id e2 ↔
        category e1 = category e2
        ∧ dashRuns false (Js.toLowerCase (title e1))
          = dashRuns false (Js.toLowerCase (title e2)))).
Proof.
  destruct (catalogOf_discovered w s) as [Happs Hsettings].
  apply (Discovered_sorted _ w) in Happs, Hsettings.
  pose proof Discovered_system as Hsys.
  assert (Forall (λ e, id e = deriveId (category e) (keyOf e))
            (catalogOf w s)) as Hids.
  { unfold catalogOf. rewrite !Forall_app. split_and!.
    - eapply Forall_impl; [apply Happs|]. by intros e [-> ->].
    - eapply Forall_impl; [apply Hsettings|]. by intros e [-> ->].
    - eapply Forall_impl; [apply Hsys|]. by intros e [-> ->]. }
  split_and!; [done| |].
  - destruct (Discovered_pairs _ _ Happs) as [Hnd1 Hc1].
    destruct (Discovered_pairs _ _ Hsettings) as [Hnd2 Hc2].
    destruct (Discovered_pairs _ _ Hsys) as [Hnd3 Hc3].
    unfold catalogOf. rewrite !fmap_app. apply NoDup_app. split_and!; [done| |].
    + intros p Hp [Hq|Hq]%elem_of_app.
      * specialize (Hc1 p Hp). specialize (Hc2 p Hq). congruence.
      * specialize (Hc1 p Hp). specialize (Hc3 p Hq). congruence.
    + apply NoDup_app. split_and!; [done| |done].
      intros p Hp Hq. specialize (Hc2 p Hp). specialize (Hc3 p Hq).
      congruence.
  - intros e1 e2 He1 He2. rewrite Forall_forall in Hids.
    rewrite (Hids e1 He1), (Hids e2 He2). split.
    + apply deriveId_inj.
    + intros [-> Hk]. unfold deriveId, keyOf. by rewrite Hk.
Qed.

(** C7, the claim as stated fails: on the example machine the
    applications [Foo Bar.app] and [Foo-Bar.app] are two entries of one
    catalog with the same identifier. *)
Lemma two_entries_share_an_id :
  let catalog := (getAvailableCommands demoWorld initialState).1 in
  (title <$> catalog !! 1%nat) = Some "Foo Bar"
  ∧ (title <$> catalog !! 2%nat) = Some "Foo-Bar"
  ∧ (id <$> catalog !! 1%nat) = Some "app-foo-bar"
  ∧ (id <$> catalog !! 2%nat) = Some "app-foo-bar"
  ∧ bool_decide (NoDup (id <$> catalog)) = false.
Proof. vm_compute. by split_and!. Qed.

(** ** The rebuilt catalog *)

Lemma codeCompare_le a b : codeCompare a b ≤ 0 ↔ String.le a b.
Proof.
  unfold codeCompare, String.le. case_bool_decide as Hab.
  - subst b. split; [|lia]. intros _.
    change (String.le a a). reflexivity.
  - destruct (String.leb a b); simpl; split; (lia || done).
Qed.

Lemma codeCompare_consistent w :
  localeCompare w = codeCompare → ConsistentCollation w.
Proof.
  intros Hw. split.
  - intros a b. rewrite Hw, !codeCompare_le. apply String.le_total.
  - intros a b c. rewrite Hw, !codeCompare_le. intros ? ?. by etrans.
Qed.

Lemma Sorted_weaken {A : Type} (R R' : A → A → Prop) l :
  (∀ a b, R a b → R' a b) → Sorted R l → Sorted R' l.
Proof.
  intros HR. induction 1 as [|x l Hl IH Hhd]; constructor; [done|].
  destruct Hhd; constructor. by apply HR.
Qed.

Lemma sortByTitle_sorted w l :
  ConsistentCollation w → StronglySorted (TitleLe w) (sortByTitle w l).
Proof.
  intros [Htotal Htrans].
  assert (Transitive (TitleLe w)) as Htr.
  { intros a b c. apply Htrans. }
  apply Sorted_StronglySorted; [done|].
  unfold sortByTitle.
  eapply Sorted_weaken; [|apply sortBy_Sorted].
  - intros a b Hab. by apply Z.leb_le in Hab.
  - intros a b. rewrite !Z.leb_le. apply Htotal.
Qed.

Lemma foldM_appDir_nothing w dirs acc s :
  (∀ dir, dir ∈ dirs → bundlesIn w ".app" dir = []) →
  foldM (appDir w) acc dirs s = (acc, s).
Proof.
  revert acc s. induction dirs as [|dir rest IH]; intros acc s Hempty; [done|].
  simpl. unfold mbind, M_bind, appDir at 1.
  rewrite (Hempty dir) by (by left). cbn.
  apply IH. intros d Hd. apply Hempty. by right.
Qed.

Lemma bundlesIn_empty_or_absent w suffix dir :
  existsSync w dir = false ∨ readdirSync w dir = Some [] →
  bundlesIn w suffix dir = [].
Proof.
  unfold bundlesIn. intros [-> | ->]; [done|]. by destruct (existsSync w dir).
Qed.

(** C5. A request that finds the cache empty or expired returns and
    stores the applications found, sorted by title, then the settings
    found, sorted by title, then the system commands. Each sorted part
    is a rearrangement of what its discovery flow returned, in
    non-decreasing order of title for the collation of the machine
    (assumed to be a consistent comparison). When every application
    directory is absent or empty, no application is found, the request
    still returns a catalog, and the system commands are in it. *)
Theorem rebuild_sorts_and_appends_system (w : World) (s : State) :
  cachedCommands s = None ∨ CACHE_TTL ≤ dateNow w 0 - cacheTimestamp s →
  ConsistentCollation w →
  let apps := (appsFound w s).1 in
  let settings := (settingsFound w s).1 in
  let result := getAvailableCommands w s in
  result.1 = sortByTitle w apps ++ sortByTitle w settings ++ systemCommands
  ∧ cachedCommands result.2 = Some result.1
  ∧ sortByTitle w apps ≡ₚ apps
  ∧ StronglySorted (TitleLe w) (sortByTitle w apps)
  ∧ sortByTitle w settings ≡ₚ settings
  ∧ StronglySorted (TitleLe w) (sortByTitle w settings)
  ∧ ((∀ dir, dir ∈ appDirs w →
             existsSync w dir = false ∨ readdirSync w dir = Some []) →
     apps = []
     ∧ result.1 = sortByTitle w settings ++ systemCommands
     ∧ systemCommands ⊆ result.1).
Proof.
  intros Hmiss Hcoll apps settings result.
  assert (result.1 = catalogOf w s ∧ cachedCommands result.2 = Some result.1)
    as [Hresult Hstored].
  { subst result. rewrite getAvailableCommands_miss by done.
    by rewrite rebuild_unfold. }
  split_and!; [done|done| | | | |].
  - apply sortBy_Permutation.
  - by apply sortByTitle_sorted.
  - apply sortBy_Permutation.
  - by apply sortByTitle_sorted.
  - intros Hdirs.
    assert (apps = []) as Happs.
    { subst apps. unfold appsFound, discoverApplications, mbind, M_bind.
      rewrite foldM_appDir_nothing; [done|].
      intros dir Hdir. by apply bundlesIn_empty_or_absent, Hdirs. }
    split_and!; [done| |].
    + rewrite Hresult. unfold catalogOf. fold apps settings.
      by rewrite Happs.
    + rewrite Hresult. unfold catalogOf. intros e He.
      rewrite !elem_of_app. by right; right.
Qed.

(** C5, at work: the example machine without its application
    directories, on its first request. *)
Lemma rebuild_without_applications_witness :
  let w := withoutApplications demoWorld in
  (appsFound w initialState).1 = []
  ∧ (getAvailableCommands w initialState).1
    = sortByTitle w (settingsFound w initialState).1 ++ systemCommands
  ∧ systemCommands ⊆ (getAvailableCommands w initialState).1.
Proof.
  intros w.
  refine (proj2 (proj2 (proj2 (proj2 (proj2 (proj2
    (rebuild_sorts_and_appends_system w initialState
       (or_introl eq_refl)
       (codeCompare_consistent w eq_refl))))))) _).
  intros dir Hdir. left. subst w. unfold withoutApplications. cbn [existsSync].
  by rewrite bool_decide_eq_true_2.
Defined.

(** ** Bundles without a readable manifest *)

Lemma append_assoc (a b c : string) : (a +:+ b) +:+ c = a +:+ (b +:+ c).
Proof.
  induction a as [|x a IH]; [done|].
  change (String x ((a +:+ b) +:+ c) = String x (a +:+ (b +:+ c))).
  by rewrite IH.
Qed.

Lemma length_append (a b : string) :
  String.length (a +:+ b) = (String.length a + String.length b)%nat.
Proof.
  induction a as [|x a IH]; [done|].
  change (S (String.length (a +:+ b))
          = S (String.length a + String.length b)).
  by rewrite IH.
Qed.

Lemma substring_whole (s : string) :
  String.substring 0 (String.length s) s = s.
Proof. induction s as [|c s IH]; [done|]. cbn. by rewrite IH. Qed.

Lemma substring_split (s : string) :
  ∀ k, (k ≤ String.length s)%nat →
  s = String.substring 0 k s +:+ String.substring k (String.length s - k) s.
Proof.
  induction s as [|c s IH]; intros k Hk.
  - by destruct k.
  - destruct k as [|k].
    + rewrite Nat.sub_0_r, substring_whole. reflexivity.
    + cbn [String.substring String.length Nat.sub].
      change (String c s = String c (String.substring 0 k s
                +:+ String.substring k (String.length s - k) s)).
      f_equal. apply IH. cbn in Hk. lia.
Qed.

Lemma endsWith_split s p :
  Js.endsWith s p = true → s = Js.dropEnd (String.length p) s +:+ p.
Proof.
  unfold Js.endsWith, Js.dropEnd.
  intros [Hlen Hsub%bool_decide_eq_true]%andb_true_iff.
  apply Nat.leb_le in Hlen.
  rewrite (substring_split s (String.length s - String.length p)) at 1
    by lia.
  f_equal. rewrite <- Hsub at 3. f_equal. lia.
Qed.

Lemma rev_app_append a b : String.rev_app a b = String.rev_app a "" +:+ b.
Proof.
  revert b. induction a as [|c a IH]; intros b; [done|]. cbn.
  rewrite (IH (String c b)), (IH (String c "")). rewrite append_assoc.
  reflexivity.
Qed.

Lemma lastSegmentAcc_suffix t :
  (∀ acc, Js.lastSegmentAcc acc t = String.rev_app acc t) →
  ∀ q acc, Js.lastSegmentAcc acc (q +:+ t) = Js.lastSegmentAcc acc q +:+ t.
Proof.
  intros Ht. induction q as [|c q IH]; intros acc.
  - change ("" +:+ t) with t. rewrite Ht. cbn. apply rev_app_append.
  - change (String c q +:+ t) with (String c (q +:+ t)). cbn.
    case_bool_decide; apply IH.
Qed.

Lemma basename_app_nonempty q :
  q ≠ "" → Js.basename (q +:+ ".app") ".app" ≠ "".
Proof.
  intros Hq. unfold Js.basename, Js.lastSegment.
  rewrite lastSegmentAcc_suffix by done.
  case_bool_decide as Hwhole.
  { apply (f_equal String.length) in Hwhole. rewrite length_append in Hwhole.
    destruct q; [done|]. cbn in Hwhole. lia. }
  destruct (Js.lastSegmentAcc "" q) as [|c b0].
  - by vm_compute.
  - destruct (_ && _); [|done].
    unfold Js.dropEnd. rewrite length_append. cbn [String.length].
    replace (S (String.length b0) + 4 - 4)%nat with (S (String.length b0))
      by lia.
    done.
Qed.

Lemma pathJoin_app dir x :
  dir ≠ "" →
  ∃ q, q ≠ "" ∧ Js.pathJoin [dir; x +:+ ".app"] = q +:+ ".app".
Proof.
  intros Hdir. exists (dir +:+ "/" +:+ x). split.
  - by destruct dir.
  - unfold Js.pathJoin. rewrite filter_cons_True by done.
    rewrite filter_cons_True by (by destruct x).
    rewrite filter_nil. cbn [Js.joinNonEmpty].
    destruct x; by rewrite !append_assoc.
Qed.

Lemma toLowerCase_nonempty s : s ≠ "" → Js.toLowerCase s ≠ "".
Proof. by destruct s. Qed.

Lemma appDirs_nonempty w dir : dir ∈ appDirs w → dir ≠ "".
Proof.
  unfold appDirs. rewrite !elem_of_cons, elem_of_nil.
  intros [->|[->|[->|[->|[]]]]]; try done.
  unfold Js.pathJoin. destruct (Js.orEmpty (envHome w)) as [|c home].
  - by vm_compute.
  - rewrite filter_cons_True by done. rewrite filter_cons_True by done. done.
Qed.

Lemma elem_of_bundlesIn w suffix dir entries entry :
  existsSync w dir = true → readdirSync w dir = Some entries →
  entry ∈ entries → Js.endsWith entry suffix = true →
  Js.pathJoin [dir; entry] ∈ bundlesIn w suffix dir.
Proof.
  intros Hexists Hread Hentry Hsuffix. unfold bundlesIn.
  rewrite Hexists, Hread.
  apply (list_elem_of_fmap_2 (λ e, Js.pathJoin [dir; e])).
  apply list_elem_of_filter. split; [|done]. by rewrite Hsuffix.
Qed.

Lemma deriveId_nonempty cat key : deriveId cat key ≠ "".
Proof. by destruct cat. Qed.

Lemma legacySource_covers w icon acc :
  Catalogued CatSettings acc →
  returns (legacySource w icon acc)
    (λ acc', Forall (λ e, category e = CatSettings
                          ∧ id e = deriveId CatSettings (keyOf e)) acc'.1
             ∧ ∀ dir p, dir ∈ prefDirs w → p ∈ bundlesIn w ".prefPane" dir →
                        paneKey p ∈ keyOf <$> acc'.1).
Proof.
  intros Hacc. eapply returns_weaken; [by apply legacySource_grows|].
  intros acc' ((_ & Hseen & Hwf) & _ & Hcov). split; [done|].
  intros dir p Hdir Hp. apply Hseen. by eapply Hcov.
Qed.

(** ** The extension callback on untyped manifests *)

Lemma jsonOrEmpty_strings (a : option string) :
  jsonOrEmpty (JString <$> a) = JString (Js.orEmpty a).
Proof.
  destruct a as [x|]; [|done]. cbn. unfold Js.truthy.
  by case_bool_decide as Hx; [rewrite Hx|].
Qed.

Lemma jsonOr_strings (a b : option string) :
  jsonOr (JString <$> a) (JString <$> b) = JString <$> Js.orElse a b.
Proof. destruct a as [x|]; [|done]. cbn. by destruct (Js.truthy x). Qed.

(** On a manifest whose values are strings the callback cannot throw,
    and [appexCandidate] is what it does. *)
Lemma appexCallback_on_strings (i : nat) (file : string) (info : PlistInfo) :
  appexCallback i file (Some (rawManifest info))
  = match appexCandidate (i, (file, Some info)) with
    | Some c => CallbackCandidate c
    | None => CallbackNull
    end.
Proof.
  unfold appexCallback, appexCandidate, rawManifest.
  cbn [rawDisplayName rawName rawIdentifier].
  rewrite jsonOr_strings, !jsonOrEmpty_strings.
  generalize (Js.orEmpty (Js.orElse (CFBundleDisplayName info)
                            (CFBundleName info))).
  generalize (Js.orEmpty (CFBundleIdentifier info)).
  intros bundleId displayName.
  cbn [jsonTruthy callIncludes callEndsWith].
  destruct (Js.truthy displayName); cbn [negb orTry orb]; [|done].
  destruct (Js.includes displayName "Intents"); cbn [orTry orb]; [done|].
  destruct (Js.includes displayName "Widget"); cbn [orTry orb]; [done|].
  destruct (Js.endsWith displayName "DeviceExpert"); cbn [orTry orb]; [done|].
  destruct (Js.includes bundleId "intents"); cbn [orTry orb]; [done|].
  destruct (Js.includes bundleId "widget"); [done|].
  by destruct (_ || _)%bool.
Qed.

(** A display name that is a number, a boolean or an object, and is
    truthy, makes the callback throw, whatever the rest of the manifest
    is; so does such an identifier once the display name has passed its
    three tests. *)
Lemma appexCallback_throws (i : nat) (file : string) (info : RawInfo) :
  (jsonOr (rawDisplayName info) (rawName info) = Some (JOther true)
   → appexCallback i file (Some info) = CallbackThrows)
  ∧ (∀ name,
       jsonOr (rawDisplayName info) (rawName info) = Some (JString name) →
       Js.truthy name = true →
       Js.includes name "Intents" = false →
       Js.includes name "Widget" = false →
       Js.endsWith name "DeviceExpert" = false →
       rawIdentifier info = Some (JOther true) →
       appexCallback i file (Some info) = CallbackThrows).
Proof.
  split.
  - intros Hname. unfold appexCallback. by rewrite Hname.
  - intros name Hname Htruthy Hintents Hwidget Hexpert Hident.
    unfold appexCallback. rewrite Hname, Hident.
    cbn [jsonOrEmpty jsonTruthy]. rewrite Htruthy.
    cbn [jsonTruthy callIncludes callEndsWith negb orTry].
    rewrite Htruthy. cbn [negb orTry].
    by rewrite Hintents, Hwidget, Hexpert.
Qed.

(** C6, as amended. Whatever the manifests are, every application
    bundle of a readable application directory is represented by an
    application entry with its key, a non-empty identifier and a
    non-empty title: application discovery reads no manifest outside the
    icon extractor and cannot abort. Every preference pane of a readable
    pane directory is represented, in what the pane source hands back,
    by a settings entry with its key and a non-empty identifier,
    whatever pair of entries and seen keys that source starts from. A
    bundle whose manifest is missing or unreadable gets no icon from the
    first step of the icon extractor (the other two steps still apply).
    An extension whose manifest cannot be read is dropped: its callback
    returns [null] before a title is formed, and does not throw. *)
Theorem bundles_survive_an_unreadable_manifest (w : World) (s : State) :
  (∀ dir entries entry,
     dir ∈ appDirs w → existsSync w dir = true →
     readdirSync w dir = Some entries → entry ∈ entries →
     Js.endsWith entry ".app" = true →
     ∃ e, e ∈ (discoverApplications w s).1
          ∧ Js.toLowerCase (title e) = appKey (Js.pathJoin [dir; entry])
          ∧ category e = CatApp ∧ id e ≠ "" ∧ title e ≠ "")
  ∧ (∀ settingsIcon acc s' dir entries entry,
       Catalogued CatSettings acc →
       dir ∈ prefDirs w → existsSync w dir = true →
       readdirSync w dir = Some entries → entry ∈ entries →
       Js.endsWith entry ".prefPane" = true →
       ∃ e, e ∈ (legacySource w settingsIcon acc s').1.1
            ∧ Js.toLowerCase (title e) = paneKey (Js.pathJoin [dir; entry])
            ∧ category e = CatSettings ∧ id e ≠ "")
  ∧ (∀ bundlePath s',
       existsSync w (plistPathOf bundlePath) = false
       ∨ plutil w (plistPathOf bundlePath) = None →
       (iconFromManifest w bundlePath s').1 = None
       ∧ (readPlistJson w bundlePath s').1 = None)
  ∧ (∀ pos file,
       appexCandidate (pos, (file, None)) = None
       ∧ appexCallback pos file None = CallbackNull).
Proof.
  split_and!.
  - intros dir entries entry Hdir Hexists Hread Hentry Hsuffix.
    destruct (discoverApplications_returns w s) as [[_ Hwf] Hcov].
    pose proof (elem_of_bundlesIn _ _ _ _ _ Hexists Hread Hentry Hsuffix)
      as Hp.
    apply (Hcov dir _ Hdir) in Hp.
    apply list_elem_of_fmap in Hp as (e & Hkey & He).
    rewrite Forall_forall in Hwf. destruct (Hwf e He) as [Hcat Hid].
    exists e. split_and!; [done|done|done| |].
    + rewrite Hid. apply deriveId_nonempty.
    + intros Htitle.
      assert (appKey (Js.pathJoin [dir; entry]) ≠ "") as Hne.
      { unfold appKey. apply toLowerCase_nonempty.
        rewrite (endsWith_split _ _ Hsuffix).
        destruct (pathJoin_app dir (Js.dropEnd (String.length ".app") entry)
                    (appDirs_nonempty w dir Hdir)) as (q & Hq & ->).
        by apply basename_app_nonempty. }
      apply Hne. rewrite Hkey. unfold keyOf. by rewrite Htitle.
  - intros icon acc s' dir entries entry Hacc Hdir Hexists Hread Hentry
      Hsuffix.
    destruct (legacySource_covers w icon acc Hacc s') as [Hwf Hcov].
    pose proof (elem_of_bundlesIn _ _ _ _ _ Hexists Hread Hentry Hsuffix)
      as Hp.
    apply (Hcov dir _ Hdir) in Hp.
    apply list_elem_of_fmap in Hp as (e & Hkey & He).
    rewrite Forall_forall in Hwf. destruct (Hwf e He) as [Hcat Hid].
    exists e. split_and!; [done|done|done|].
    rewrite Hid. apply deriveId_nonempty.
  - intros bundlePath s' Hmanifest.
    unfold iconFromManifest, readPlistJson, mbind, M_bind.
    destruct Hmanifest as [-> | ->]; [done|].
    by destruct (existsSync w _).
  - done.
Qed.

(** C6, the claim as stated fails: on the example machine the
    extension [DisplaysSettings.appex] is one of the extensions
    considered, its manifest cannot be read, and no entry of the
    settings found stands for it. *)
Lemma extension_without_manifest_is_dropped :
  allAppex demoWorld
  = ["WifiSettings.appex"; "DisplaysSettings.appex"; "Network.appex"]
  ∧ (readPlistJson demoWorld
       (Js.pathJoin [extDir; "DisplaysSettings.appex"]) initialState).1
    = None
  ∧ title <$> (discoverSystemSettings demoWorld initialState).1
    = ["Wi-Fi"; "Network"; "Date & Time"; ""].
Proof. vm_compute. by split_and!. Qed.

(** * Further properties of the registry *)

(** ** Vocabulary of the further properties *)

(** [m] leaves the cache as it is, does not lower the icon counter, and
    its only effects are processes started, recorded behind the events
    already there. *)
Definition Frames {A : Type} (m : M A) : Prop :=
  ∀ s, cachedCommands (m s).2 = cachedCommands s
       ∧ cacheTimestamp (m s).2 = cacheTimestamp s
       ∧ (iconCounter s ≤ iconCounter (m s).2)%nat
       ∧ ∃ tail, events (m s).2 = events s ++ tail
                 ∧ Forall (λ e, ∃ commandLine, e = Exec commandLine) tail.

(** [m] frames the state and starts at most [n] processes, as its only
    effects; the icon counter rises by at most their number. *)
Definition Within {A : Type} (n : nat) (m : M A) : Prop :=
  ∀ s, cachedCommands (m s).2 = cachedCommands s
       ∧ cacheTimestamp (m s).2 = cacheTimestamp s
       ∧ ∃ tail, events (m s).2 = events s ++ tail
                 ∧ Forall (λ e, ∃ commandLine, e = Exec commandLine) tail
                 ∧ (length tail ≤ n)%nat
                 ∧ (iconCounter s ≤ iconCounter (m s).2
                    ≤ iconCounter s + length tail)%nat.

(** A character an identifier is made of behind its category prefix. *)
Definition idChar (c : ascii) : bool :=
  Js.isLower c || Js.isDigit c || bool_decide (c = "-"%char).

(** A text of such characters without two dashes in a row. *)
Definition SafeId (t : string) : Prop :=
  Forall (λ c, idChar c = true) (list_ascii_of_string t)
  ∧ Js.includes t "--" = false.

(** The application bundles in the order of the scan: directory by
    directory, each in the order of its enumeration. *)
Definition appsScanned (w : World) : list string :=
  concat (bundlesIn w ".app" <$> appDirs w).

(** The first path of every key, in the order of the list. *)
Fixpoint firstByKey (key : string → string) (l : list string) : list string :=
  match l with
  | [] => []
  | p :: t => p :: filter (λ q, key q ≠ key p) (firstByKey key t)
  end.

(** What of an entry does not depend on its icon. *)
Definition shape (e : CommandInfo)
  : string * option string * string * Category :=
  (title e, path e, id e, category e).

Definition appShape (appPath : string)
  : string * option string * string * Category :=
  (Js.basename appPath ".app", Some appPath,
   deriveId CatApp (appKey appPath), CatApp).

(** The candidate an application bundle gives. *)
Definition appCand (appPath : string) : Candidate :=
  {| position := 0;
     candTitle := Js.basename appPath ".app";
     candKey := appKey appPath;
     candTarget := appPath;
     candBundle := appPath |}.


(** The effect of a stretch of the scan on the loop-carried pair. *)
Definition AppStep (acc : list CommandInfo * gset string)
    (paths : list string) (acc' : list CommandInfo * gset string) : Prop :=
  acc'.2 = (claim appCandidate acc.2 paths).1
  ∧ shape <$> acc'.1
    = (shape <$> acc.1)
      ++ ((λ c, appShape (candTarget c))
            <$> (claim appCandidate acc.2 paths).2).



(** ** What the discovery leaves alone *)

Lemma Within_ret {A : Type} (x : A) : Within 0 (mret x).
Proof.
  intros s. split_and!; [done..|]. exists [].
  rewrite app_nil_r. split_and!; [done|constructor|simpl; lia..].
Qed.

Lemma Within_weaken {A : Type} (m : M A) n n' :
  (n ≤ n')%nat → Within n m → Within n' m.
Proof.
  intros Hn Hm s. destruct (Hm s) as (Hc & Ht & tail & He & Hx & Hl & Hi).
  split_and!; [done..|]. exists tail. split_and!; [done|done|lia..].
Qed.

Lemma Within_bind {A B : Type} (m : M A) (f : A → M B) n1 n2 :
  Within n1 m → (∀ a, Within n2 (f a)) → Within (n1 + n2) (m ≫= f).
Proof.
  intros Hm Hf s. unfold mbind, M_bind.
  destruct (Hm s) as (Hc & Ht & tail & He & Hx & Hl & Hi).
  destruct (m s) as [a s1]. simpl in *.
  destruct (Hf a s1) as (Hc' & Ht' & tail' & He' & Hx' & Hl' & Hi').
  split_and!; [congruence..|]. exists (tail ++ tail').
  rewrite He', He, app_assoc, length_app.
  split_and!; [done|by apply Forall_app|lia..].
Qed.

Lemma Within_exec commandLine : Within 1 (emit (Exec commandLine)).
Proof.
  intros s. split_and!; [done..|]. exists [Exec commandLine].
  split_and!; [done|repeat constructor; by eexists|simpl; lia..].
Qed.

Lemma Within_icnsToPngDataUrl w icnsPath :
  Within 1 (icnsToPngDataUrl w icnsPath).
Proof.
  intros s. unfold icnsToPngDataUrl, mbind, M_bind, nextIconCounter.
  cbn [fst snd emit mret M_ret]. split_and!; [done..|].
  eexists [_]. cbn [events iconCounter length].
  split_and!; [done|repeat constructor; by eexists|lia..].
Qed.

Lemma Within_iconFromManifest w bundlePath :
  Within 2 (iconFromManifest w bundlePath).
Proof.
  unfold iconFromManifest.
  destruct (existsSync w (plistPathOf bundlePath));
    [|apply (Within_weaken _ 0); [lia|apply Within_ret]].
  apply (Within_bind _ _ 1 1); [apply Within_exec|]. intros _.
  destruct (plutil w _) as [info|];
    [|apply (Within_weaken _ 0); [lia|apply Within_ret]].
  destruct (Js.orElse _ _) as [iconFileName|];
    [|apply (Within_weaken _ 0); [lia|apply Within_ret]].
  destruct (Js.truthy iconFileName);
    [|apply (Within_weaken _ 0); [lia|apply Within_ret]].
  cbn zeta.
  match goal with
  | |- Within _ (if existsSync w ?p then _ else _) =>
      destruct (existsSync w p)
  end; [apply Within_icnsToPngDataUrl|].
  apply (Within_weaken _ 0); [lia|apply Within_ret].
Qed.

Lemma Within_iconFromNames w resourcesDir files names :
  Within (length names) (iconFromNames w resourcesDir files names).
Proof.
  induction names as [|name rest IH]; simpl; [apply Within_ret|].
  case_bool_decide; [|by apply (Within_weaken _ (length rest)); [lia|]].
  apply (Within_bind _ _ 1 (length rest)); [apply Within_icnsToPngDataUrl|].
  intros [url|]; [|done].
  apply (Within_weaken _ 0); [lia|apply Within_ret].
Qed.

Lemma Within_iconFromResources w bundlePath :
  Within 4 (iconFromResources w bundlePath).
Proof.
  unfold iconFromResources.
  destruct (existsSync w (resourcesDirOf bundlePath));
    [|apply (Within_weaken _ 0); [lia|apply Within_ret]].
  destruct (readdirSync w _) as [files|];
    [|apply (Within_weaken _ 0); [lia|apply Within_ret]].
  apply (Within_bind _ _ 3 1); [apply Within_iconFromNames|].
  intros [url|]; [apply (Within_weaken _ 0); [lia|apply Within_ret]|].
  destruct (List.find _ files) as [anyIcns|];
    [|apply (Within_weaken _ 0); [lia|apply Within_ret]].
  destruct (Js.truthy anyIcns); [apply Within_icnsToPngDataUrl|].
  apply (Within_weaken _ 0); [lia|apply Within_ret].
Qed.

Lemma Within_getIconDataUrl w bundlePath :
  Within 6 (getIconDataUrl w bundlePath).
Proof.
  unfold getIconDataUrl.
  apply (Within_bind _ _ 2 4); [apply Within_iconFromManifest|].
  intros [url|]; [apply (Within_weaken _ 0); [lia|apply Within_ret]|].
  apply (Within_weaken _ (4 + 0)); [lia|].
  apply Within_bind; [apply Within_iconFromResources|].
  intros [url|]; apply Within_ret.
Qed.

(** X1. Extracting the icon of one bundle starts at most six
    processes, the icon counter rises by at most their number, and the
    call has no other effect: the cache is untouched and the earlier
    events stay. *)
Theorem icon_extraction_is_bounded (w : World) (bundlePath : string)
    (s : State) :
  let s' := (getIconDataUrl w bundlePath s).2 in
  cachedCommands s' = cachedCommands s
  ∧ cacheTimestamp s' = cacheTimestamp s
  ∧ ∃ started,
      events s' = events s ++ started
      ∧ Forall (λ e, ∃ commandLine, e = Exec commandLine) started
      ∧ (length started ≤ 6)%nat
      ∧ (iconCounter s ≤ iconCounter s' ≤ iconCounter s + length started)%nat.
Proof. apply (Within_getIconDataUrl w bundlePath). Qed.

Lemma Frames_of_Within {A : Type} n (m : M A) : Within n m → Frames m.
Proof.
  intros Hm s. destruct (Hm s) as (Hc & Ht & tail & He & Hx & _ & Hi).
  split_and!; [done|done|lia|]. by exists tail.
Qed.

Lemma Frames_ret {A : Type} (x : A) : Frames (mret x).
Proof. apply (Frames_of_Within 0), Within_ret. Qed.

Lemma Frames_bind {A B : Type} (m : M A) (f : A → M B) :
  Frames m → (∀ a, Frames (f a)) → Frames (m ≫= f).
Proof.
  intros Hm Hf s. unfold mbind, M_bind.
  destruct (Hm s) as (Hc & Ht & Hi & tail & He & Hx).
  destruct (m s) as [a s1]. simpl in *.
  destruct (Hf a s1) as (Hc' & Ht' & Hi' & tail' & He' & Hx').
  split_and!; [congruence|congruence|lia|]. exists (tail ++ tail').
  rewrite He', He, app_assoc. split; [done|by apply Forall_app].
Qed.

Lemma Frames_foldM {A B : Type} (f : B → A → M B) l :
  (∀ b x, Frames (f b x)) → ∀ b, Frames (foldM f b l).
Proof.
  intros Hf. induction l as [|x t IH]; intros b; simpl.
  - apply Frames_ret.
  - apply Frames_bind; [apply Hf|]. intros b'. apply IH.
Qed.

Lemma Frames_forEachM {A B : Type} (f : A → M B) l :
  (∀ x, Frames (f x)) → Frames (forEachM f l).
Proof.
  intros Hf. induction l as [|x t IH]; simpl.
  - apply Frames_ret.
  - apply Frames_bind; [apply Hf|]. intros y.
    apply Frames_bind; [apply IH|]. intros ys. apply Frames_ret.
Qed.

Lemma Frames_getIconDataUrl w bundlePath :
  Frames (getIconDataUrl w bundlePath).
Proof.
  apply (Frames_of_Within 6), Within_getIconDataUrl.
Qed.

Lemma Frames_readPlistJson w bundlePath : Frames (readPlistJson w bundlePath).
Proof.
  unfold readPlistJson. destruct (existsSync w _); [|apply Frames_ret].
  apply Frames_bind; [apply (Frames_of_Within 1), Within_exec|].
  intros _. apply Frames_ret.
Qed.

Lemma Frames_appItem w c : Frames (appItem w c).
Proof.
  apply Frames_bind; [apply Frames_getIconDataUrl|].
  intros icon. apply Frames_ret.
Qed.

Lemma Frames_settingsItem w icon c : Frames (settingsItem w icon c).
Proof.
  apply Frames_bind; [apply Frames_getIconDataUrl|].
  intros icon'. apply Frames_ret.
Qed.

Lemma Frames_appBatch w acc batch : Frames (appBatch w acc batch).
Proof.
  destruct acc as [results seen]. unfold appBatch.
  destruct (claim appCandidate seen batch) as [seen' cs].
  apply Frames_bind; [apply Frames_forEachM, Frames_appItem|].
  intros items. apply Frames_ret.
Qed.

Lemma Frames_paneBatch w icon acc batch : Frames (paneBatch w icon acc batch).
Proof.
  destruct acc as [results seen]. unfold paneBatch.
  destruct (claim paneCandidate seen batch) as [seen' cs].
  apply Frames_bind; [apply Frames_forEachM, Frames_settingsItem|].
  intros items. apply Frames_ret.
Qed.

Lemma Frames_appexBatch w icon acc batch :
  Frames (appexBatch w icon acc batch).
Proof.
  destruct acc as [results seen]. unfold appexBatch.
  apply Frames_bind.
  { apply Frames_forEachM. intros file.
    apply Frames_bind; [apply Frames_readPlistJson|].
    intros read. apply Frames_ret. }
  intros reads.
  match goal with
  | |- context [claim appexCandidate seen ?l] =>
      destruct (claim appexCandidate seen l) as [seen' cs]
  end.
  apply Frames_bind.
  { apply Frames_forEachM. intros c.
    apply Frames_bind; [apply Frames_settingsItem|].
    intros item. apply Frames_ret. }
  intros items. apply Frames_ret.
Qed.

Lemma Frames_discoverApplications w : Frames (discoverApplications w).
Proof.
  apply Frames_bind; [|intros acc; apply Frames_ret].
  apply Frames_foldM. intros acc dir.
  apply Frames_foldM. intros acc' batch. apply Frames_appBatch.
Qed.

Lemma Frames_discoverSystemSettings w : Frames (discoverSystemSettings w).
Proof.
  apply Frames_bind.
  { unfold settingsAppIcon. destruct (List.find _ _).
    - apply Frames_getIconDataUrl.
    - apply Frames_ret. }
  intros icon. apply Frames_bind.
  { apply Frames_foldM. intros acc batch. apply Frames_appexBatch. }
  intros acc1. apply Frames_bind; [|intros acc; apply Frames_ret].
  apply Frames_foldM. intros acc dir.
  apply Frames_foldM. intros acc' batch. apply Frames_paneBatch.
Qed.

(** X2. The two discovery flows never touch the cache: from every
    state they leave the stored catalog and its timestamp as they are
    and do not lower the icon counter; their only effects are the
    processes they start, recorded behind the events that were there. *)
Theorem discovery_leaves_the_cache_alone (w : World) (s : State) :
  let s1 := (discoverApplications w s).2 in
  let s2 := (discoverSystemSettings w s).2 in
  (cachedCommands s1 = cachedCommands s
   ∧ cacheTimestamp s1 = cacheTimestamp s
   ∧ (iconCounter s ≤ iconCounter s1)%nat
   ∧ ∃ started, events s1 = events s ++ started
                ∧ Forall (λ e, ∃ commandLine, e = Exec commandLine) started)
  ∧ (cachedCommands s2 = cachedCommands s
     ∧ cacheTimestamp s2 = cacheTimestamp s
     ∧ (iconCounter s ≤ iconCounter s2)%nat
     ∧ ∃ started, events s2 = events s ++ started
                  ∧ Forall (λ e, ∃ commandLine, e = Exec commandLine) started).
Proof.
  split.
  - apply (Frames_discoverApplications w s).
  - apply (Frames_discoverSystemSettings w s).
Qed.

(** X3. A request that finds the cache empty or expired reports what it
    did: behind the earlier events it logs that discovery starts, then
    only starts processes, and last logs the numbers of applications and
    settings found; these numbers and the one system command add up to
    the length of the catalog it returns, which it stamps with the clock
    reading taken on entry. *)
Theorem rebuild_reports_what_it_found (w : World) (s : State) :
  cachedCommands s = None ∨ CACHE_TTL ≤ dateNow w 0 - cacheTimestamp s →
  let result := getAvailableCommands w s in
  ∃ napps nsettings started,
    events result.2
    = events s
      ++ Console MsgDiscovering :: started
      ++ [Console (MsgDiscovered napps nsettings (dateNow w 2 - dateNow w 1))]
    ∧ Forall (λ e, ∃ commandLine, e = Exec commandLine) started
    ∧ length result.1 = (napps + nsettings + 1)%nat
    ∧ cacheTimestamp result.2 = dateNow w 0
    ∧ (iconCounter s ≤ iconCounter result.2)%nat.
Proof.
  intros Hmiss result. subst result.
  rewrite getAvailableCommands_miss by done. rewrite rebuild_unfold.
  cbn [fst snd events cacheTimestamp iconCounter].
  destruct (Frames_discoverApplications w (emit (Console MsgDiscovering) s).2)
    as (_ & _ & Hi1 & tail1 & He1 & Hx1).
  destruct (Frames_discoverSystemSettings w (appsFound w s).2)
    as (_ & _ & Hi2 & tail2 & He2 & Hx2).
  fold (appsFound w s) in Hi1, He1. fold (settingsFound w s) in Hi2, He2.
  exists (length (sortByTitle w (appsFound w s).1)),
    (length (sortByTitle w (settingsFound w s).1)), (tail1 ++ tail2).
  split_and!.
  - rewrite He2, He1. cbn [emit snd events]. by rewrite <- !app_assoc.
  - by apply Forall_app.
  - unfold catalogOf. rewrite !length_app. cbn [length systemCommands]. lia.
  - done.
  - cbn [emit snd iconCounter] in Hi1. lia.
Qed.

(** X3, at work on the first request of the example machine. *)
Lemma rebuild_reports_witness :
  ∃ napps nsettings started,
    events (getAvailableCommands demoWorld initialState).2
    = events initialState
      ++ Console MsgDiscovering :: started
      ++ [Console (MsgDiscovered napps nsettings
                     (dateNow demoWorld 2 - dateNow demoWorld 1))]
    ∧ Forall (λ e, ∃ commandLine, e = Exec commandLine) started
    ∧ length (getAvailableCommands demoWorld initialState).1
      = (napps + nsettings + 1)%nat
    ∧ cacheTimestamp (getAvailableCommands demoWorld initialState).2
      = dateNow demoWorld 0
    ∧ (iconCounter initialState
       ≤ iconCounter (getAvailableCommands demoWorld initialState).2)%nat.
Proof.
  exact (rebuild_reports_what_it_found demoWorld initialState
           (or_introl eq_refl)).
Defined.

(** ** Invalidation *)

(** X4. Invalidation empties the slot and resets the timestamp, and
    nothing else; the next request rebuilds whatever the clock reads:
    it returns and stores the catalog discovered in its own world. *)
Theorem invalidation_forces_a_rebuild (w : World) (s : State) :
  let s0 := (invalidateCache s).2 in
  let next := getAvailableCommands w s0 in
  cachedCommands s0 = None
  ∧ cacheTimestamp s0 = 0
  ∧ iconCounter s0 = iconCounter s
  ∧ events s0 = events s
  ∧ next.1 = catalogOf w s0
  ∧ cachedCommands next.2 = Some (catalogOf w s0)
  ∧ cacheTimestamp next.2 = dateNow w 0.
Proof.
  intros s0 next. split_and!; [done..| | |];
    subst next; rewrite getAvailableCommands_miss by (by left);
    by rewrite rebuild_unfold.
Qed.

(** ** The attempts of [openSettingsPane] *)

Lemma attemptsMade_first_success ok attempts :
  attemptsMade ok attempts
  = match list_find (λ c, ok c = true) attempts with
    | Some (n, _) => Exec <$> take (S n) attempts
    | None => (Exec <$> attempts) ++ [Console MsgCouldNotOpenSettings]
    end.
Proof.
  induction attempts as [|c rest IH]; [done|].
  cbn [attemptsMade list_find]. destruct (decide (ok c = true)) as [Hc|Hc].
  - rewrite Hc. cbn. by rewrite take_0.
  - apply not_true_is_false in Hc. rewrite Hc, IH.
    destruct (list_find _ rest) as [[n c']|]; done.
Qed.

(** X5. Opening a settings pane tries, in this order, the identifier
    itself (only if it starts with [com.apple.]), the identifier under
    [com.apple.settings.], the lower-case identifier under
    [com.apple.preference.], the System Settings application and the
    System Preferences application. It stops at the first attempt that
    succeeds and then starts no further process; only when all attempts
    fail does it log that the settings could not be opened. It has no
    other effect. *)
Theorem settings_attempts_stop_at_first_success
    (w : World) (identifier : string) (s : State) :
  let attempts := settingsAttempts identifier in
  let s' := (openSettingsPane w identifier s).2 in
  (length attempts = if Js.startsWith identifier "com.apple." then 5 else 4)%nat
  ∧ cachedCommands s' = cachedCommands s
  ∧ cacheTimestamp s' = cacheTimestamp s
  ∧ iconCounter s' = iconCounter s
  ∧ events s'
    = events s
      ++ match list_find (λ c, openSucceeds w c = true) attempts with
         | Some (n, _) => Exec <$> take (S n) attempts
         | None => (Exec <$> attempts) ++ [Console MsgCouldNotOpenSettings]
         end.
Proof.
  intros attempts s'. subst s'. rewrite openSettingsPane_trace.
  cbn [snd withEvents cachedCommands cacheTimestamp iconCounter events].
  split_and!; [|done..|].
  - subst attempts. unfold settingsAttempts.
    by destruct (Js.startsWith identifier "com.apple.").
  - by rewrite attemptsMade_first_success.
Qed.

(** ** Batches *)

Lemma batchesFuel_bounded {A : Type} fuel (l : list A) :
  Forall (λ b, (0 < length b ≤ BATCH)%nat) (batchesFuel fuel l).
Proof.
  revert l. induction fuel as [|fuel IH]; intros l; [constructor|].
  destruct l as [|x t]; [constructor|].
  cbn [batchesFuel]. constructor; [|apply IH].
  rewrite length_take. cbn [length]. unfold BATCH. lia.
Qed.

Lemma batchesFuel_lookup {A : Type} fuel (l : list A) i b :
  batchesFuel fuel l !! i = Some b →
  b = take BATCH (drop (i * BATCH) l).
Proof.
  revert l i. induction fuel as [|fuel IH]; intros l i Hb; [done|].
  destruct l as [|x t]; [done|]. cbn [batchesFuel] in Hb.
  destruct i as [|i].
  - by injection Hb as <-.
  - apply IH in Hb. rewrite Hb, drop_drop. reflexivity.
Qed.

(** X6. Batching loses nothing and bounds the concurrency: the batches
    of a list, concatenated, are the list; every batch has at least one
    and at most 15 elements; and the batch of index [i] is the slice of
    15 elements that starts at position [15 * i]. *)
Theorem batches_partition {A : Type} (l : list A) :
  concat (batches l) = l
  ∧ Forall (λ b, (0 < length b ≤ 15)%nat) (batches l)
  ∧ (∀ i b, batches l !! i = Some b → b = take 15 (drop (i * 15) l)).
Proof.
  split_and!.
  - apply batches_concat.
  - apply batchesFuel_bounded.
  - intros i b. apply batchesFuel_lookup.
Qed.

(** ** The extensions considered *)

Lemma elem_of_uniq l x : x ∈ uniq l ↔ x ∈ l.
Proof.
  induction l as [|y t IH]; [done|]. cbn [uniq].
  rewrite !elem_of_cons, list_elem_of_filter, IH.
  destruct (decide (x = y)); naive_solver.
Qed.

Lemma NoDup_uniq l : NoDup (uniq l).
Proof.
  induction l as [|y t IH]; [constructor|]. cbn [uniq]. constructor.
  - rewrite list_elem_of_filter. naive_solver.
  - by apply NoDup_filter.
Qed.

(** X7. Every extension is considered at most once, also when its name
    passes the name filter and is on the list of known settings
    extensions; the extensions considered are exactly the files of the
    extensions directory that pass the filter or are on the list, and
    none when the directory is absent or cannot be read. *)
Theorem extensions_considered_once (w : World) :
  NoDup (allAppex w)
  ∧ (∀ f, f ∈ allAppex w ↔
          existsSync w extDir = true
          ∧ ∃ files, readdirSync w extDir = Some files
                     ∧ f ∈ files
                     ∧ (isSettingsAppex f = true ∨ f ∈ knownSettingsExt)).
Proof.
  unfold allAppex. destruct (existsSync w extDir); [|split].
  - split; [apply NoDup_uniq|]. intros f.
    rewrite elem_of_uniq, elem_of_app, !list_elem_of_filter.
    destruct (readdirSync w extDir) as [files|]; simpl.
    + split.
      * intros [[Hf Hin]|[Hf Hin]]; (split; [done|]); exists files;
          split_and!; try done; [left|right]; try done.
        by apply Is_true_true.
      * intros (_ & files' & [= <-] & Hin & [Hf|Hf]); [left|right];
          (split; [|done]); [by apply Is_true_true|done].
    + rewrite !elem_of_nil. split; [tauto|].
      by intros (_ & files' & ? & _).
  - constructor.
  - intros f. rewrite elem_of_nil. split; [done|]. by intros [? _].
Qed.

(** ** The characters of an identifier *)

Lemma alnum_not_dash c :
  Js.isLower c || Js.isDigit c = true → c ≠ "-"%char.
Proof. intros Hc ->. by vm_compute in Hc. Qed.

Lemma prefix_cons_ne a b s1 s2 :
  a ≠ b → String.prefix (String a s1) (String b s2) = false.
Proof. intros Hab. cbn. by destruct (ascii_dec a b). Qed.

Lemma dashRuns_safe s :
  ∀ inRun,
  SafeId (dashRuns inRun s)
  ∧ (inRun = true → String.prefix "-" (dashRuns inRun s) = false).
Proof.
  induction s as [|c t IH]; intros inRun.
  { split; [split; [constructor|done]|done]. }
  cbn [dashRuns]. destruct (Js.isLower c || Js.isDigit c) eqn:Hc.
  - destruct (IH false) as [[Hchars Hdd] _].
    pose proof (alnum_not_dash c Hc) as Hnd.
    split; [split|].
    + constructor; [|done]. unfold idChar. by rewrite Hc.
    + cbn [Js.includes]. rewrite Hdd, orb_false_r.
      apply prefix_cons_ne. congruence.
    + intros _. apply prefix_cons_ne. congruence.
  - destruct inRun.
    + apply IH.
    + destruct (IH true) as [[Hchars Hdd] Hstart].
      split; [split|done].
      * by constructor.
      * cbn [Js.includes]. rewrite Hdd, orb_false_r.
        cbn [String.prefix]. destruct (ascii_dec "-" "-"); [|done].
        by apply Hstart.
Qed.

Lemma dashRuns_fixes_safe t :
  SafeId t →
  dashRuns false t = t
  ∧ (String.prefix "-" t = false → dashRuns true t = t).
Proof.
  induction t as [|c t IH]; intros [Hchars Hdd]; [done|].
  cbn [list_ascii_of_string] in Hchars.
  apply Forall_cons in Hchars as [Hc Hchars].
  cbn [Js.includes] in Hdd. apply orb_false_iff in Hdd as [Hpre Hdd].
  destruct (IH (conj Hchars Hdd)) as [IHf IHt].
  cbn [dashRuns]. destruct (Js.isLower c || Js.isDigit c) eqn:Halnum.
  - rewrite IHf. done.
  - unfold idChar in Hc. rewrite Halnum in Hc. cbn in Hc.
    apply bool_decide_eq_true in Hc. subst c. split.
    + f_equal. apply IHt. exact Hpre.
    + intros Hstart. exfalso. revert Hstart.
      change (String.prefix "-" (String "-" t))
        with (if ascii_dec "-" "-" then String.prefix "" t else false).
      destruct (ascii_dec "-" "-"); [|done]. by destruct t.
Qed.

(** X8. Behind its category prefix and a dash, the identifier of every
    entry of a rebuilt catalog consists of lower-case letters, digits
    and dashes only, never has two dashes in a row, and is left as it is
    when the substitution that produced it is applied again. *)
Theorem catalog_ids_are_safe (w : World) (s : State) :
  Forall
    (λ e, ∃ t, id e = categoryPrefix (category e) +:+ "-" +:+ t
               ∧ Forall (λ c, idChar c = true) (list_ascii_of_string t)
               ∧ Js.includes t "--" = false
               ∧ dashRuns false t = t)
    (catalogOf w s).
Proof.
  destruct (catalogOf_discovered w s) as [Happs Hsettings].
  apply (Discovered_sorted _ w) in Happs, Hsettings.
  destruct Happs as [_ Happs]. destruct Hsettings as [_ Hsettings].
  destruct Discovered_system as [_ Hsys].
  assert (∀ cat e, category e = cat ∧ id e = deriveId cat (keyOf e) →
            ∃ t, id e = categoryPrefix (category e) +:+ "-" +:+ t
                 ∧ Forall (λ c, idChar c = true) (list_ascii_of_string t)
                 ∧ Js.includes t "--" = false
                 ∧ dashRuns false t = t) as Hone.
  { intros cat e [-> Hid]. exists (dashRuns false (keyOf e)).
    destruct (dashRuns_safe (keyOf e) false) as [[Hchars Hdd] _].
    split_and!; [done..|]. by apply dashRuns_fixes_safe. }
  unfold catalogOf. rewrite !Forall_app. split_and!.
  - eapply Forall_impl; [exact Happs|]. apply Hone.
  - eapply Forall_impl; [exact Hsettings|]. apply Hone.
  - eapply Forall_impl; [exact Hsys|]. apply Hone.
Qed.

(** ** Applications: the first bundle of a name wins *)

Lemma claim_app {A : Type} (cand : A → option Candidate) l1 l2 :
  ∀ seen,
  claim cand seen (l1 ++ l2)
  = let '(seen1, cs1) := claim cand seen l1 in
    let '(seen2, cs2) := claim cand seen1 l2 in
    (seen2, cs1 ++ cs2).
Proof.
  induction l1 as [|x t IH]; intros seen; cbn [claim app].
  - by destruct (claim cand seen l2).
  - destruct (cand x) as [c|]; [|apply IH].
    destruct (decide (candKey c ∈ seen)); [apply IH|].
    rewrite IH. destruct (claim cand _ t) as [seen1 cs1].
    by destruct (claim cand seen1 l2).
Qed.

Lemma firstByKey_filter key (P : string → Prop) `{∀ k, Decision (P k)} l :
  firstByKey key (filter (λ q, P (key q)) l)
  = filter (λ q, P (key q)) (firstByKey key l).
Proof.
  induction l as [|p t IH]; [done|]. cbn [firstByKey].
  destruct (decide (P (key p))) as [Hp|Hp].
  - rewrite !filter_cons_True by done. cbn [firstByKey]. f_equal.
    rewrite IH, !list_filter_filter. apply list_filter_iff.
    intros q. split; intros [? ?]; by split.
  - rewrite !filter_cons_False by done.
    rewrite IH, list_filter_filter. apply list_filter_iff.
    intros q. split; [|by intros [? ?]]. intros Hq. split; [done|].
    congruence.
Qed.

Lemma claim_appCandidate l :
  ∀ seen,
  (claim appCandidate seen l).2
  = appCand <$> firstByKey appKey (filter (λ p, appKey p ∉ seen) l).
Proof.
  induction l as [|p t IH]; intros seen; [done|].
  cbn [claim]. change (appCandidate p) with (Some (appCand p)). cbn beta iota.
  change (candKey (appCand p)) with (appKey p).
  destruct (decide (appKey p ∈ seen)) as [Hin|Hout].
  - rewrite filter_cons_False by (by intros ?). apply IH.
  - rewrite filter_cons_True by done.
    specialize (IH ({[appKey p]} ∪ seen)).
    destruct (claim appCandidate ({[appKey p]} ∪ seen) t) as [seen' cs].
    cbn [snd] in *. rewrite IH. cbn [firstByKey]. rewrite fmap_cons.
    f_equal. f_equal.
    etrans; [|exact (firstByKey_filter appKey (λ k, k ≠ appKey p) _)].
    f_equal. etrans; [|symmetry; apply list_filter_filter].
    apply list_filter_iff.
    intros q. rewrite elem_of_union, elem_of_singleton.
    split; [|intros [? ?] [?|?]; done].
    intros Hq. split; intros ?; apply Hq; [by left|by right].
Qed.

Lemma AppStep_nil acc : AppStep acc [] acc.
Proof. split; [done|]. cbn. by rewrite app_nil_r. Qed.

Lemma AppStep_trans acc acc1 acc2 paths1 paths2 :
  AppStep acc paths1 acc1 → AppStep acc1 paths2 acc2 →
  AppStep acc (paths1 ++ paths2) acc2.
Proof.
  intros [Hs1 Hr1] [Hs2 Hr2]. unfold AppStep. rewrite claim_app.
  destruct (claim appCandidate acc.2 paths1) as [seen1 cs1].
  cbn [fst snd] in *. rewrite Hs1 in Hs2, Hr2.
  destruct (claim appCandidate seen1 paths2) as [seen2 cs2].
  cbn [fst snd] in *. split; [done|].
  by rewrite Hr2, Hr1, fmap_app, app_assoc.
Qed.

Lemma foldM_AppStep {X : Type}
    (f : list CommandInfo * gset string → X
         → M (list CommandInfo * gset string))
    (paths : X → list string) l :
  (∀ acc x, returns (f acc x) (AppStep acc (paths x))) →
  ∀ acc, returns (foldM f acc l) (AppStep acc (concat (paths <$> l))).
Proof.
  intros Hf. induction l as [|x t IH]; intros acc.
  - apply returns_ret, AppStep_nil.
  - cbn [foldM fmap list_fmap concat].
    eapply returns_bind; [apply Hf|]. intros acc1 H1.
    eapply returns_weaken; [apply IH|]. intros acc2 H2.
    by eapply AppStep_trans.
Qed.

Lemma Built_appShape cs items :
  Forall2 (Built CatApp) cs items →
  (∀ c, c ∈ cs → ∃ p, c = appCand p) →
  shape <$> items = (λ c, appShape (candTarget c)) <$> cs.
Proof.
  induction 1 as [|c e cs items (Ht & Hc & Hi & Hp) _ IH]; intros Hfrom;
    [done|].
  rewrite !fmap_cons. f_equal.
  - destruct (Hfrom c) as [p ->]; [by left|].
    unfold shape, appShape. by rewrite Ht, Hc, Hi, Hp.
  - apply IH. intros c' Hc'. apply Hfrom. by right.
Qed.

Lemma appBatch_AppStep w acc batch :
  returns (appBatch w acc batch) (AppStep acc batch).
Proof.
  destruct acc as [results seen]. unfold appBatch, AppStep. cbn [fst snd].
  destruct (claim appCandidate seen batch) as [seen' cs] eqn:Hclaim.
  eapply returns_bind; [apply returns_forEachM, appItem_built|].
  intros items Hitems. apply returns_ret. cbn [fst snd]. split; [done|].
  rewrite fmap_app. f_equal. apply Built_appShape; [done|].
  intros c Hc.
  pose proof (claim_appCandidate batch seen) as Hcs.
  rewrite Hclaim in Hcs. cbn [snd] in Hcs. rewrite Hcs in Hc.
  apply list_elem_of_fmap in Hc as (p & -> & _). by exists p.
Qed.

Lemma filter_all {A : Type} (P : A → Prop) `{∀ x, Decision (P x)}
    (l : list A) :
  (∀ x, P x) → filter P l = l.
Proof.
  intros HP. induction l as [|x t IH]; [done|].
  rewrite filter_cons_True by done. by rewrite IH.
Qed.

Lemma discoverApplications_shape w :
  returns (discoverApplications w)
    (λ found, shape <$> found
              = appShape <$> firstByKey appKey (appsScanned w)).
Proof.
  unfold discoverApplications.
  eapply returns_bind.
  - apply (foldM_AppStep (appDir w) (bundlesIn w ".app")).
    intros acc dir. unfold appDir.
    eapply returns_weaken.
    + apply (foldM_AppStep (appBatch w) (λ batch, batch)).
      apply appBatch_AppStep.
    + intros acc'. by rewrite list_fmap_id, batches_concat.
  - intros acc [_ Hshape]. apply returns_ret.
    cbn [fst snd fmap list_fmap app] in Hshape. rewrite Hshape.
    fold (appsScanned w). rewrite claim_appCandidate.
    rewrite <- list_fmap_compose. cbn.
    f_equal. f_equal. apply filter_all. intros p.
    apply not_elem_of_empty.
Qed.

Lemma firstByKey_first key l1 p l2 :
  key p ∉ key <$> l1 → p ∈ firstByKey key (l1 ++ p :: l2).
Proof.
  induction l1 as [|a l1 IH]; intros Hp; cbn [app firstByKey].
  - by left.
  - rewrite fmap_cons, not_elem_of_cons in Hp. destruct Hp as [Hne Hp].
    right. apply list_elem_of_filter. split; [done|]. by apply IH.
Qed.

(** X9. Application discovery keeps, for every lower-case name, the
    first bundle in the order of the scan (directory by directory, each
    in the order of its enumeration), and returns the bundles kept in
    that order: each entry has the bundle's base name as title, its path
    as target, the application category and the identifier derived from
    its key. In particular a bundle before which no bundle of the same
    key was scanned has an entry. *)
Theorem applications_first_seen_wins (w : World) (s : State) :
  let found := (discoverApplications w s).1 in
  let kept := firstByKey appKey (appsScanned w) in
  path <$> found = Some <$> kept
  ∧ title <$> found = (λ p, Js.basename p ".app") <$> kept
  ∧ id <$> found = (λ p, deriveId CatApp (appKey p)) <$> kept
  ∧ category <$> found = (λ _, CatApp) <$> kept
  ∧ (∀ before p after,
       appsScanned w = before ++ p :: after →
       appKey p ∉ appKey <$> before →
       Some p ∈ path <$> found).
Proof.
  intros found kept.
  pose proof (discoverApplications_shape w s) as Hshape.
  fold found kept in Hshape.
  assert (path <$> found = Some <$> kept) as Hpath.
  { apply (f_equal (fmap (λ x, x.1.1.2))) in Hshape.
    by rewrite <- !list_fmap_compose in Hshape. }
  split_and!; [done| | | |].
  - apply (f_equal (fmap (λ x, x.1.1.1))) in Hshape.
    by rewrite <- !list_fmap_compose in Hshape.
  - apply (f_equal (fmap (λ x, x.1.2))) in Hshape.
    by rewrite <- !list_fmap_compose in Hshape.
  - apply (f_equal (fmap (λ x, x.2))) in Hshape.
    by rewrite <- !list_fmap_compose in Hshape.
  - intros before p after Hscan Hfirst. rewrite Hpath.
    apply list_elem_of_fmap_2. subst kept. rewrite Hscan.
    by apply firstByKey_first.
Qed.

(** ** Targets *)

Lemma Built_has_target cat cs items :
  Forall2 (Built cat) cs items → Forall (λ e, is_Some (path e)) items.
Proof.
  induction 1 as [|c e cs items (_ & _ & _ & Hp) _ IH]; constructor;
    [by rewrite Hp|done].
Qed.

Lemma discoverSystemSettings_targets w :
  returns (discoverSystemSettings w) (Forall (λ e, is_Some (path e))).
Proof.
  unfold discoverSystemSettings.
  apply (returns_bind _ _ (λ _, True)); [by intros s|]. intros icon _.
  eapply (returns_bind _ _ (λ acc, Forall (λ e, is_Some (path e)) acc.1)).
  { apply (returns_foldM _ (λ acc, Forall (λ e, is_Some (path e)) acc.1));
      [|constructor].
    intros [results seen] batch Hacc. unfold appexBatch.
    apply (returns_bind _ _ (λ _, True)); [by intros s|]. intros reads _.
    match goal with
    | |- context [claim appexCandidate seen ?l] =>
        destruct (claim appexCandidate seen l) as [seen' cs]
    end.
    eapply returns_bind.
    { apply (returns_forEachM _ (λ c x, Built CatSettings c x.2)).
      intros c. eapply returns_bind; [apply settingsItem_built|].
      intros e He. by apply returns_ret. }
    intros items Hitems. apply returns_ret. cbn [fst].
    apply Forall_app. split; [done|].
    unfold sortOn. rewrite sortBy_Permutation.
    eapply Built_has_target. by apply Forall2_fmap_snd_built. }
  intros acc1 Hacc1.
  apply (returns_bind _ _ (λ acc, Forall (λ e, is_Some (path e)) acc.1));
    [|intros acc Hacc; by apply returns_ret].
  apply (returns_foldM _ (λ acc, Forall (λ e, is_Some (path e)) acc.1));
    [|done].
  intros acc dir Hacc.
  apply (returns_foldM _ (λ acc, Forall (λ e, is_Some (path e)) acc.1));
    [|done].
  intros [results seen] batch Hres. unfold paneBatch.
  destruct (claim paneCandidate seen batch) as [seen' cs].
  eapply returns_bind; [apply returns_forEachM, settingsItem_built|].
  intros items Hitems. apply returns_ret. cbn [fst].
  apply Forall_app. split; [done|]. by eapply Built_has_target.
Qed.

Lemma elem_of_firstByKey key l p : p ∈ firstByKey key l → p ∈ l.
Proof.
  induction l as [|a t IH]; [done|]. cbn [firstByKey].
  intros [->|[_ Hp]%list_elem_of_filter]%elem_of_cons; [by left|].
  right. by apply IH.
Qed.

Lemma found_app_shape w s e :
  e ∈ (discoverApplications w s).1 →
  ∃ p, p ∈ appsScanned w ∧ shape e = appShape p.
Proof.
  intros He. apply (list_elem_of_fmap_2 shape) in He.
  rewrite (discoverApplications_shape w s) in He.
  apply list_elem_of_fmap in He as (p & Hp & Hin).
  exists p. split; [by eapply elem_of_firstByKey|done].
Qed.

(** X10. In a rebuilt catalog every application entry and every
    settings entry has a target and the system command has none; the
    target of an application entry is the path of one of the bundles
    scanned. *)
Theorem targets_by_category (w : World) (s : State) :
  Forall
    (λ e, match category e with
          | CatApp => ∃ p, p ∈ appsScanned w ∧ path e = Some p
          | CatSettings => is_Some (path e)
          | CatSystem => path e = None
          end)
    (catalogOf w s).
Proof.
  destruct (catalogOf_discovered w s) as [[_ Happs] [_ Hsettings]].
  unfold catalogOf. rewrite !Forall_app. split_and!.
  - unfold sortByTitle. rewrite sortBy_Permutation.
    apply Forall_forall. intros e He.
    rewrite Forall_forall in Happs. destruct (Happs e He) as [-> _].
    destruct (found_app_shape w _ e He) as (p & Hp & Hshape).
    exists p. split; [done|]. by injection Hshape.
  - unfold sortByTitle. rewrite sortBy_Permutation.
    pose proof (discoverSystemSettings_targets w (appsFound w s).2) as Ht.
    apply Forall_forall. intros e He.
    rewrite Forall_forall in Hsettings, Ht.
    destruct (Hsettings e He) as [-> _]. by apply Ht.
  - by repeat constructor.
Qed.

Lemma bundlesIn_nonempty w suffix dir p :
  suffix ≠ "" → p ∈ bundlesIn w suffix dir → p ≠ "".
Proof.
  intros Hsuffix. unfold bundlesIn.
  destruct (existsSync w dir); [|by intros ?%elem_of_nil].
  destruct (readdirSync w dir) as [entries|]; [|by intros ?%elem_of_nil].
  intros (entry & -> & [Hends _]%list_elem_of_filter)%list_elem_of_fmap.
  assert (entry ≠ "") as Hentry.
  { intros ->. destruct suffix; [done|]. by vm_compute in Hends. }
  unfold Js.pathJoin. destruct (decide (dir = "")) as [->|Hdir].
  - rewrite filter_cons_False by (by intros ?).
    rewrite filter_cons_True by done. done.
  - rewrite !filter_cons_True by done. by destruct dir.
Qed.

Lemma appsScanned_nonempty w p : p ∈ appsScanned w → p ≠ "".
Proof.
  unfold appsScanned. intros Hp.
  apply list_elem_of_In, in_concat in Hp as (l & Hl & Hp).
  apply list_elem_of_In, list_elem_of_fmap in Hl as (dir & -> & _).
  apply list_elem_of_In in Hp.
  by apply (bundlesIn_nonempty w ".app" dir).
Qed.

Lemma find_id_some (commands : list CommandInfo) e :
  e ∈ commands →
  ∃ c, List.find (λ c, bool_decide (id c = id e)) commands = Some c
       ∧ c ∈ commands ∧ id c = id e.
Proof.
  induction commands as [|a t IH]; intros He; [by apply elem_of_nil in He|].
  cbn [List.find]. case_bool_decide as Ha.
  - exists a. split_and!; [done|by left|done].
  - apply elem_of_cons in He as [->|He]; [done|].
    destruct (IH He) as (c & Hfind & Hc & Hid).
    exists c. split_and!; [done|by right|done].
Qed.

(** X11. Every application listed can be launched. When a request
    rebuilds the catalog, executing the identifier of any application
    entry of it runs exactly one [open] command, on the path of a
    scanned bundle with that identifier, and answers whether that
    command succeeded; a failure is logged. *)
Theorem applications_are_launchable
    (w : World) (s : State) (n : nat) (e : CommandInfo) :
  cachedCommands s = None ∨ CACHE_TTL ≤ dateNow w 0 - cacheTimestamp s →
  (getAvailableCommands w s).1 !! n = Some e →
  category e = CatApp →
  ∃ p, p ∈ appsScanned w
       ∧ deriveId CatApp (appKey p) = id e
       ∧ executeCommand w (id e) s
         = (openSucceeds w ("open " +:+ quoted p),
            withEvents (getAvailableCommands w s).2
              (Exec ("open " +:+ quoted p)
               :: if openSucceeds w ("open " +:+ quoted p) then []
                  else [Console (MsgFailedToExecute (id e))])).
Proof.
  intros Hmiss Hn Hcat.
  assert ((getAvailableCommands w s).1 = catalogOf w s) as Hcatalog.
  { rewrite getAvailableCommands_miss by done. by rewrite rebuild_unfold. }
  rewrite Hcatalog in Hn. apply list_elem_of_lookup_2 in Hn.
  destruct (catalogOf_discovered w s) as [[_ Happs] [_ Hsettings]].
  destruct Discovered_system as [_ Hsys].
  rewrite Forall_forall in Happs, Hsettings, Hsys.
  assert (∀ c, c ∈ catalogOf w s → category c = CatApp →
            c ∈ (appsFound w s).1) as Hisapp.
  { intros c Hc Hcc. unfold catalogOf in Hc.
    rewrite !elem_of_app in Hc. unfold sortByTitle in Hc.
    rewrite !sortBy_Permutation in Hc.
    destruct Hc as [Hc|[Hc|Hc]]; [done| |].
    - destruct (Hsettings c Hc). congruence.
    - destruct (Hsys c Hc). congruence. }
  pose proof (Hisapp e Hn Hcat) as He.
  destruct (Happs e He) as [_ Hide].
  destruct (find_id_some _ e Hn) as (c & Hfind & Hc & Hidc).
  assert (category c = CatApp) as Hcc.
  { unfold catalogOf in Hc. rewrite !elem_of_app in Hc.
    unfold sortByTitle in Hc. rewrite !sortBy_Permutation in Hc.
    destruct Hc as [Hc|[Hc|Hc]].
    - by destruct (Happs c Hc).
    - destruct (Hsettings c Hc) as [_ Hid'].
      rewrite Hid', Hide in Hidc. by apply deriveId_inj in Hidc as [? _].
    - destruct (Hsys c Hc) as [_ Hid'].
      rewrite Hid', Hide in Hidc. by apply deriveId_inj in Hidc as [? _]. }
  destruct (found_app_shape w _ c (Hisapp c Hc Hcc)) as (p & Hp & Hshape).
  injection Hshape as Htitle Hpath Hid _.
  exists p. split_and!; [done|congruence|].
  rewrite executeCommand_unfold.
  2: { rewrite Hide. intros Hq. by vm_compute in Hq. }
  cbn zeta. rewrite Hcatalog, Hfind, Hpath.
  assert (Js.truthy p = true) as ->.
  { unfold Js.truthy. rewrite bool_decide_eq_false_2; [done|].
    by apply (appsScanned_nonempty w). }
  unfold dispatch. rewrite Hcc.
  unfold openAppByPath, tryOpen, mbind, M_bind, mret, M_ret, emit, withEvents.
  cbn [fst snd iconCounter cachedCommands cacheTimestamp events].
  destruct (openSucceeds w _); [done|].
  cbn [fst snd iconCounter cachedCommands cacheTimestamp events].
  by rewrite <- app_assoc.
Qed.

(** X11, at work: the first entry of the example machine's catalog. *)
Lemma applications_are_launchable_witness :
  ∃ p, p ∈ appsScanned demoWorld
       ∧ deriveId CatApp (appKey p) = "app-alpha"
       ∧ executeCommand demoWorld "app-alpha" initialState
         = (openSucceeds demoWorld ("open " +:+ quoted p),
            withEvents (getAvailableCommands demoWorld initialState).2
              (Exec ("open " +:+ quoted p)
               :: if openSucceeds demoWorld ("open " +:+ quoted p) then []
                  else [Console (MsgFailedToExecute "app-alpha")])).
Proof.
  exact (applications_are_launchable demoWorld initialState 0
           {| id := "app-alpha";
              title := "Alpha";
              keywords := Some ["alpha"];
              iconDataUrl := None;
              category := CatApp;
              path := Some "/Applications/Alpha.app" |}
           (or_introl eq_refl)
           ltac:(vm_compute; reflexivity) eq_refl).
Defined.

(** ** Properties of every entry *)

Lemma returns_forEachM_Forall {A B : Type} (f : A → M B) (Q : B → Prop)
    (l : list A) :
  (∀ x, x ∈ l → returns (f x) Q) → returns (forEachM f l) (Forall Q).
Proof.
  induction l as [|x t IH]; intros Hf; simpl.
  - apply returns_ret. constructor.
  - eapply returns_bind; [apply Hf; by left|]. intros y Hy.
    eapply returns_bind; [apply IH; intros z Hz; apply Hf; by right|].
    intros ys Hys. apply returns_ret. by constructor.
Qed.

Lemma claim_from {A : Type} (cand : A → option Candidate) seen (l : list A) c :
  c ∈ (claim cand seen l).2 → ∃ x, cand x = Some c.
Proof.
  intros Hc. destruct (claim cand seen l) as [seen' cs] eqn:Hclaim.
  destruct (claim_spec cand l seen seen' cs Hclaim) as (_ & Hcs & _).
  destruct (Hcs c Hc) as (_ & x & _ & Hx). by exists x.
Qed.

(** A property that every item callback establishes holds for every
    entry of the settings found. *)
Lemma settings_entries_forall w icon (Q : CommandInfo → Prop) acc :
  (∀ c, (∃ x, appexCandidate x = Some c) ∨ (∃ p, paneCandidate p = Some c) →
        returns (settingsItem w icon c) Q) →
  Forall Q acc.1 →
  returns (acc1 ← extensionSource w icon acc; legacySource w icon acc1)
    (λ acc', Forall Q acc'.1).
Proof.
  intros Hitem Hacc.
  apply (returns_bind _ _ (λ acc, Forall Q acc.1)).
  - apply (returns_foldM _ (λ acc, Forall Q acc.1)); [|done].
    intros [results seen] batch Hres. unfold appexBatch.
    apply (returns_bind _ _ (λ _, True)); [by intros s|]. intros reads _.
    match goal with
    | |- context [claim appexCandidate seen ?l] =>
        pose proof (claim_from appexCandidate seen l) as Hfrom;
        destruct (claim appexCandidate seen l) as [seen' cs]
    end.
    eapply returns_bind.
    { apply (returns_forEachM_Forall _ (λ x, Q x.2)).
      intros c Hc. eapply returns_bind; [apply Hitem; left; by apply Hfrom|].
      intros e He. by apply returns_ret. }
    intros items Hitems. apply returns_ret. cbn [fst].
    apply Forall_app. split; [done|].
    unfold sortOn. rewrite sortBy_Permutation. by apply Forall_fmap.
  - intros acc1 Hacc1.
    apply (returns_foldM _ (λ acc, Forall Q acc.1)); [|done].
    intros acc' dir Hacc'.
    apply (returns_foldM _ (λ acc, Forall Q acc.1)); [|done].
    intros [results seen] batch Hres. unfold paneBatch.
    pose proof (claim_from paneCandidate seen batch) as Hfrom.
    destruct (claim paneCandidate seen batch) as [seen' cs].
    eapply returns_bind.
    { apply (returns_forEachM_Forall _ Q).
      intros c Hc. apply Hitem. right. by apply Hfrom. }
    intros items Hitems. apply returns_ret. cbn [fst].
    apply Forall_app. by split.
Qed.

Lemma discoverSystemSettings_split w s :
  (discoverSystemSettings w s).1
  = ((acc1 ← extensionSource w (settingsAppIcon w s).1 ([], ∅);
      legacySource w (settingsAppIcon w s).1 acc1)
       (settingsAppIcon w s).2).1.1.
Proof.
  unfold discoverSystemSettings, mbind, M_bind, mret, M_ret.
  destruct (settingsAppIcon w s) as [icon s0]. cbn [fst snd].
  destruct (extensionSource w icon ([], ∅) s0) as [acc1 s1].
  by destruct (legacySource w icon acc1 s1) as [acc2 s2].
Qed.


(** X13. The key of an entry is always among its search terms: in a
    rebuilt catalog the keywords of an application entry are its
    lower-case title alone, those of a settings entry are
    [system settings], [preferences] and its lower-case title, and
    those of the quit command are the four fixed words. *)
Theorem keywords_hold_the_key (w : World) (s : State) :
  Forall
    (λ e, keywords e
          = Some match category e with
                 | CatApp => [Js.toLowerCase (title e)]
                 | CatSettings =>
                     ["system settings"; "preferences";
                      Js.toLowerCase (title e)]
                 | CatSystem => ["exit"; "close"; "quit"; "stop"]
                 end)
    (catalogOf w s).
Proof.
  unfold catalogOf. rewrite !Forall_app. split_and!.
  - unfold sortByTitle. rewrite sortBy_Permutation.
    assert (returns (discoverApplications w)
              (Forall (λ e, category e = CatApp
                            ∧ keywords e = Some [Js.toLowerCase (title e)])))
      as Hret.
    { unfold discoverApplications.
      eapply returns_bind; [|intros acc Hacc; apply returns_ret; exact Hacc].
      apply (returns_foldM _
               (λ acc, Forall (λ e, category e = CatApp
                                    ∧ keywords e
                                      = Some [Js.toLowerCase (title e)])
                         acc.1)); [|constructor].
      intros acc dir Hacc. apply returns_foldM; [|done].
      intros [results seen] batch Hres. unfold appBatch.
      pose proof (claim_from appCandidate seen batch) as Hfrom.
      destruct (claim appCandidate seen batch) as [seen' cs].
      eapply returns_bind.
      { apply (returns_forEachM_Forall _
                 (λ e, category e = CatApp
                       ∧ keywords e = Some [Js.toLowerCase (title e)])).
        intros c Hc s'. destruct (Hfrom c Hc) as [p Hp].
        apply (inj Some) in Hp. subst c.
        unfold appItem, mbind, M_bind.
        by destruct (getIconDataUrl w _ s'). }
      intros items Hitems. apply returns_ret. cbn [fst].
      apply Forall_app. by split. }
    eapply Forall_impl; [apply (Hret _)|]. by intros e [-> ->].
  - unfold sortByTitle. rewrite sortBy_Permutation.
    unfold settingsFound. rewrite discoverSystemSettings_split.
    eapply Forall_impl.
    + apply (settings_entries_forall w _
               (λ e, category e = CatSettings
                     ∧ keywords e
                       = Some ["system settings"; "preferences";
                               Js.toLowerCase (title e)])
               ([], ∅)); [|constructor].
      intros c Hc s'.
      assert (candKey c = Js.toLowerCase (candTitle c)) as Hkey.
      { destruct Hc as [[x Hx]|[p Hp]].
        - by eapply appexCandidate_keyed.
        - by eapply paneCandidate_keyed. }
      unfold settingsItem, mbind, M_bind.
      destruct (getIconDataUrl w _ s'). cbn. by rewrite Hkey.
    + by intros e [-> ->].
  - by repeat constructor.
Qed.

(** X14. The quit command closes every rebuilt catalog and is its only
    system entry and the only entry with its identifier; so no catalog
    is empty. *)
Theorem quit_is_last_and_alone (w : World) (s : State) :
  (∃ before, catalogOf w s = before ++ systemCommands
             ∧ Forall (λ e, category e ≠ CatSystem) before)
  ∧ (∀ e, e ∈ catalogOf w s → id e = "system-quit-launcher" →
          e ∈ systemCommands)
  ∧ (0 < length (catalogOf w s))%nat.
Proof.
  destruct (catalogOf_discovered w s) as [Happs Hsettings].
  apply (Discovered_sorted _ w) in Happs, Hsettings.
  destruct Happs as [_ Happs]. destruct Hsettings as [_ Hsettings].
  assert (Forall (λ e, category e ≠ CatSystem ∧ id e ≠ "system-quit-launcher")
            (sortByTitle w (appsFound w s).1
             ++ sortByTitle w (settingsFound w s).1)) as Hbefore.
  { apply Forall_app. split.
    - eapply Forall_impl; [exact Happs|]. intros e [-> ->].
      split; [done|]. intros Hq. by vm_compute in Hq.
    - eapply Forall_impl; [exact Hsettings|]. intros e [-> ->].
      split; [done|]. intros Hq. by vm_compute in Hq. }
  split_and!.
  - eexists. split; [unfold catalogOf; by rewrite app_assoc|].
    eapply Forall_impl; [exact Hbefore|]. by intros e [? _].
  - intros e He Hid. unfold catalogOf in He.
    rewrite app_assoc in He. apply elem_of_app in He as [He|He]; [|done].
    rewrite Forall_forall in Hbefore. by destruct (Hbefore e He).
  - unfold catalogOf. rewrite !length_app. cbn [length systemCommands]. lia.
Qed.

(** ** Trimmed titles *)

Lemma append_nil_r (a : string) : a +:+ "" = a.
Proof.
  induction a as [|x a IH]; [done|].
  change (String x (a +:+ "") = String x a). by rewrite IH.
Qed.

Lemma rev_app_app a b acc :
  String.rev_app (a +:+ b) acc = String.rev_app b (String.rev_app a acc).
Proof.
  revert acc. induction a as [|x a IH]; intros acc; [done|].
  change (String.rev_app (a +:+ b) (String x acc)
          = String.rev_app b (String.rev_app a (String x acc))).
  apply IH.
Qed.

Lemma rev_app_rev_app a b c :
  String.rev_app (String.rev_app a b) c = String.rev_app b (a +:+ c).
Proof.
  revert b c. induction a as [|x a IH]; intros b c; [done|].
  change (String.rev_app (String.rev_app a (String x b)) c
          = String.rev_app b (String x (a +:+ c))).
  by rewrite IH.
Qed.

Lemma rev_involutive (a : string) : String.rev (String.rev a) = a.
Proof.
  unfold String.rev. rewrite rev_app_rev_app. cbn. apply append_nil_r.
Qed.

Lemma rev_append (a b : string) :
  String.rev (a +:+ b) = String.rev b +:+ String.rev a.
Proof.
  unfold String.rev. rewrite rev_app_app. apply rev_app_append.
Qed.

Lemma trimStart_head s c rest :
  Js.trimStart s = String c rest → Ascii.is_space c = false.
Proof.
  induction s as [|x s IH]; [done|]. cbn [Js.trimStart].
  destruct (Ascii.is_space x) eqn:Hx; [done|]. by intros [= <- _].
Qed.

Lemma trimStart_suffix s : ∃ spaces, s = spaces +:+ Js.trimStart s.
Proof.
  induction s as [|x s [spaces IH]]; [by exists ""|]. cbn [Js.trimStart].
  destruct (Ascii.is_space x).
  - exists (String x spaces).
    change (String x s = String x (spaces +:+ Js.trimStart s)).
    by rewrite <- IH.
  - by exists "".
Qed.

(** X15. A cleaned pane name neither begins nor ends with white space. *)
Theorem cleaned_names_are_trimmed (raw : string) :
  (∀ c rest, cleanPaneName raw = String c rest → Ascii.is_space c = false)
  ∧ (∀ c rest, String.rev (cleanPaneName raw) = String c rest →
               Ascii.is_space c = false).
Proof.
  unfold cleanPaneName. cbn zeta.
  generalize (applyReplacements replacements
                (replaceAnd (splitAcronym
                   (splitLowerUpper (stripKnownSuffixes raw))))).
  intros s. unfold Js.trim. split.
  - intros c rest Hhead.
    destruct (trimStart_suffix (String.rev (Js.trimStart s)))
      as [spaces Hsplit].
    apply (f_equal String.rev) in Hsplit.
    rewrite rev_involutive, rev_append, Hhead in Hsplit.
    by eapply trimStart_head.
  - intros c rest. rewrite rev_involutive. apply trimStart_head.
Qed.

(** * The extensions tab of the settings window

    The part of [ExtensionsTab.tsx] that computes on the catalog and on
    the settings: the search filter, the merged and sorted view of the
    system tab, and the updates of the component's copy of the settings
    when a command is toggled or its hotkey is changed. A handler
    belongs to one render of the component and reads the settings of
    that render; it awaits a call to the main process, and the update it
    then queues is applied by React to the settings of that later
    moment, which can differ. Of the call only whether it returns is
    modelled. [commandHotkeys] is a plain object: the map holds its own
    properties, and a read also finds the members of
    [Object.prototype]. *)

Module ExtensionsTab.

Section Settings.

(** The fields of [AppSettings] that the tab does not read. *)
Context {Other : Type}.

(** [commandHotkeys] holds the own properties of the object. *)
Record AppSettings := {
  disabledCommands : list string;
  commandHotkeys : gmap string string;
  otherSettings : Other;
}.

(** The predicate of [filterItems], for the lower-case query [q]. *)
Definition matches (q : string) (c : CommandInfo) : bool :=
  Js.includes (Js.toLowerCase (title c)) q
  || Js.includes (Js.toLowerCase (id c)) q
  || match keywords c with
     | Some ks => existsb (λ k, Js.includes (Js.toLowerCase k) q) ks
     | None => false
     end
  || match path c with
     | Some p => Js.includes (Js.toLowerCase p) q
     | None => false
     end.

Definition filterItems (searchQuery : string) (items : list CommandInfo)
  : list CommandInfo :=
  if negb (Js.truthy (Js.trim searchQuery)) then items
  else filter (λ c, matches (Js.toLowerCase searchQuery) c = true) items.

(** [filteredSystemAll]: the applications and the settings that pass
    the filter, sorted together by title. *)
Definition filteredSystemAll (w : World) (searchQuery : string)
    (commands : list CommandInfo) : list CommandInfo :=
  sortByTitle w
    (filterItems searchQuery (filter (λ c, category c = CatApp) commands)
     ++ filterItems searchQuery
          (filter (λ c, category c = CatSettings) commands)).

(** [settings?.disabledCommands.includes(id) ?? false] *)
Definition isDisabled (settings : option AppSettings) (i : string) : bool :=
  match settings with
  | Some st => bool_decide (i ∈ disabledCommands st)
  | None => false
  end.

(** A plain object also answers for the members it inherits from
    [Object.prototype]: these are their names. *)
Definition objectPrototypeMembers : list string :=
  [ "constructor"; "__defineGetter__"; "__defineSetter__"; "hasOwnProperty";
    "__lookupGetter__"; "__lookupSetter__"; "isPrototypeOf";
    "propertyIsEnumerable"; "toString"; "valueOf"; "__proto__";
    "toLocaleString" ].

(** What reading a property of [commandHotkeys] gives after [|| '']: a
    string, or the inherited function or object of that name, which is
    truthy. The map [commandHotkeys] holds the own properties. *)
Inductive PropertyValue :=
  | StringValue (s : string)
  | InheritedMember (name : string).

(** [settings?.commandHotkeys[id] || ''] *)
Definition getHotkey (settings : option AppSettings) (i : string)
  : PropertyValue :=
  match settings with
  | Some st =>
      match commandHotkeys st !! i with
      | Some hotkey => StringValue hotkey
      | None =>
          if bool_decide (i ∈ objectPrototypeMembers)
          then InheritedMember i
          else StringValue ""
      end
  | None => StringValue ""
  end.

(** The state update of [handleToggleEnabled], where [currentlyDisabled]
    is the value the handler computed before it awaited the call to the
    main process. *)
Definition toggleUpdate (commandId : string) (currentlyDisabled : bool)
    (prev : option AppSettings) : option AppSettings :=
  match prev with
  | None => None
  | Some st =>
      Some {| disabledCommands :=
                if currentlyDisabled
                then filter (λ i, i ≠ commandId) (disabledCommands st)
                else disabledCommands st ++ [commandId];
              commandHotkeys := commandHotkeys st;
              otherSettings := otherSettings st |}
  end.

(** [handleToggleEnabled] of the render that showed [rendered]: it reads
    [currentlyDisabled] from that render, awaits the call to the main
    process, and, when the call returns, queues the update; React
    applies it to the settings [prev] of that moment. When the call
    fails, nothing is queued. *)
Definition handleToggleEnabled (rendered : option AppSettings)
    (commandId : string) (callReturns : bool) (prev : option AppSettings)
  : option AppSettings :=
  let currentlyDisabled := isDisabled rendered commandId in
  if callReturns then toggleUpdate commandId currentlyDisabled prev
  else prev.

(** [hotkeys[commandId] = hotkey] on the copy of the own properties: an
    assignment to [__proto__] that is not an own property goes to the
    inherited setter, which ignores a string. *)
Definition assignProperty (commandId hotkey : string)
    (hotkeys : gmap string string) : gmap string string :=
  if bool_decide (commandId = "__proto__")
     && negb (bool_decide (is_Some (hotkeys !! commandId)))
  then hotkeys
  else <[commandId := hotkey]> hotkeys.

(** [handleHotkeyChange], when the call to the main process returns:
    the update that React applies to the settings [prev]. *)
Definition handleHotkeyChange (commandId hotkey : string)
    (prev : option AppSettings) : option AppSettings :=
  match prev with
  | None => None
  | Some st =>
      Some {| disabledCommands := disabledCommands st;
              commandHotkeys :=
                if Js.truthy hotkey
                then assignProperty commandId hotkey (commandHotkeys st)
                else delete commandId (commandHotkeys st);
              otherSettings := otherSettings st |}
  end.

Lemma prefix_refl (s : string) : String.prefix s s = true.
Proof.
  induction s as [|c s IH]; [done|]. cbn. by destruct (ascii_dec c c).
Qed.

Lemma includes_refl (s : string) : Js.includes s s = true.
Proof. destruct s; cbn [Js.includes]; by rewrite prefix_refl. Qed.

(** X16. The search filter returns the whole list for a query that is
    empty or all white space; for any other query it keeps, in their
    order, exactly the entries whose lower-case title, identifier, one
    of the keywords or path contains the lower-case query. Filtering a
    second time with the same query changes nothing, and an entry is
    always found by its own title, in any letter case. *)
Theorem search_filter_keeps_the_matches
    (searchQuery : string) (items : list CommandInfo) :
  (Js.trim searchQuery = "" → filterItems searchQuery items = items)
  ∧ (Js.trim searchQuery ≠ "" →
     ∀ e, e ∈ filterItems searchQuery items ↔
          e ∈ items ∧ matches (Js.toLowerCase searchQuery) e = true)
  ∧ filterItems searchQuery items `sublist_of` items
  ∧ filterItems searchQuery (filterItems searchQuery items)
    = filterItems searchQuery items
  ∧ (∀ e, e ∈ items →
          Js.toLowerCase searchQuery = Js.toLowerCase (title e) →
          e ∈ filterItems searchQuery items).
Proof.
  unfold filterItems, Js.truthy. rewrite negb_involutive.
  case_bool_decide as Hblank.
  - split_and!; try done; by intros ?.
  - split_and!.
    + done.
    + intros _ e. by rewrite list_elem_of_filter, (comm and).
    + apply sublist_filter.
    + rewrite list_filter_filter. apply list_filter_iff. intros c.
      split; [by intros [? _]|done].
    + intros e He Hq. apply list_elem_of_filter. split; [|done].
      unfold matches. by rewrite Hq, includes_refl.
Qed.

Lemma isDisabled_toggleUpdate (st : AppSettings) commandId b i :
  isDisabled (toggleUpdate commandId b (Some st)) i
  = if b then isDisabled (Some st) i && negb (bool_decide (i = commandId))
    else isDisabled (Some st) i || bool_decide (i = commandId).
Proof.
  cbn [isDisabled toggleUpdate disabledCommands].
  destruct b; apply eq_true_iff_eq;
    rewrite ?andb_true_iff, ?orb_true_iff, ?negb_true_iff,
      ?bool_decide_eq_true, ?bool_decide_eq_false.
  - rewrite list_elem_of_filter. by split; intros [? ?].
  - by rewrite elem_of_app, list_elem_of_singleton.
Qed.

Lemma isDisabled_toggle (prev : option AppSettings) commandId b i :
  isDisabled (toggleUpdate commandId b prev) i
  = if bool_decide (i = commandId)
    then match prev with Some _ => negb b | None => false end
    else isDisabled prev i.
Proof.
  destruct prev as [st|]; [|by case_bool_decide].
  rewrite isDisabled_toggleUpdate. case_bool_decide as Hi.
  - destruct b; [by rewrite andb_false_r|by rewrite orb_true_r].
  - destruct b; [by rewrite andb_true_r|by rewrite orb_false_r].
Qed.

(** X17. A toggle sets the command to the opposite of what the render
    of the handler showed, and leaves every other command, the hotkeys
    and the other settings as they are. When that render showed the
    current settings, the toggle flips the command, and a second toggle
    from the next render restores, for every command, whether it is
    disabled. A second toggle from the same render does not: it leaves
    what the first one set, and a command that the render showed as
    enabled is then listed twice. Without settings nothing is disabled
    and a toggle changes nothing; nor does a toggle whose call to the
    main process fails. *)
Theorem toggle_flips_one_command
    (rendered prev : option AppSettings) (commandId : string) :
  let toggled := handleToggleEnabled rendered commandId true prev in
  (is_Some prev →
   isDisabled toggled commandId = negb (isDisabled rendered commandId))
  ∧ (∀ i, i ≠ commandId → isDisabled toggled i = isDisabled prev i)
  ∧ (isDisabled rendered commandId = isDisabled prev commandId →
     (is_Some prev →
      isDisabled toggled commandId = negb (isDisabled prev commandId))
     ∧ ∀ i, isDisabled (handleToggleEnabled toggled commandId true toggled) i
            = isDisabled prev i)
  ∧ (∀ i, isDisabled (handleToggleEnabled rendered commandId true toggled) i
          = isDisabled toggled i)
  ∧ (isDisabled rendered commandId = false →
     disabledCommands
       <$> handleToggleEnabled rendered commandId true toggled
     = (λ st, disabledCommands st ++ [commandId; commandId]) <$> prev)
  ∧ (∀ i, getHotkey toggled i = getHotkey prev i)
  ∧ (otherSettings <$> toggled = otherSettings <$> prev)
  ∧ (prev = None → toggled = None ∧ isDisabled toggled commandId = false)
  ∧ handleToggleEnabled rendered commandId false prev = prev.
Proof.
  intros toggled. subst toggled. unfold handleToggleEnabled.
  set (shown := isDisabled rendered commandId).
  split_and!.
  - intros [st ->]. rewrite isDisabled_toggle.
    by rewrite bool_decide_eq_true_2.
  - intros i Hi. rewrite isDisabled_toggle.
    by rewrite bool_decide_eq_false_2.
  - intros Hagree. split.
    + intros [st ->]. rewrite isDisabled_toggle.
      rewrite bool_decide_eq_true_2 by done. by rewrite <- Hagree.
    + intros i. rewrite !isDisabled_toggle.
      rewrite (bool_decide_eq_true_2 (commandId = commandId)) by done.
      case_bool_decide as Hi; [|done]. subst i. rewrite <- Hagree.
      destruct prev as [st|]; cbn [toggleUpdate].
      * by rewrite negb_involutive.
      * symmetry. exact Hagree.
  - intros i. rewrite !isDisabled_toggle.
    case_bool_decide as Hi; [|done]. by destruct prev.
  - intros Hshown. rewrite Hshown. destruct prev as [st|]; [|done].
    cbn. by rewrite <- app_assoc.
  - intros i. by destruct prev.
  - by destruct prev.
  - by intros ->.
  - done.
Qed.

Lemma deriveId_not_inherited cat key :
  deriveId cat key ∉ objectPrototypeMembers.
Proof.
  intros Hin. unfold objectPrototypeMembers in Hin.
  destruct cat;
    repeat (apply elem_of_cons in Hin as [Hin|Hin]; [by vm_compute in Hin|]);
    by apply elem_of_nil in Hin.
Qed.

(** X18. After a hotkey change the hotkey shown for the command is the
    one entered, for every command whose identifier is not the name of
    a member of [Object.prototype], and for those too when the hotkey
    is not empty and the identifier is not [__proto__]; clearing the
    hotkey of a command with such an identifier shows the inherited
    member instead of nothing, and so does any change for [__proto__]
    when that is not an own property. The hotkeys of the other commands are the
    same, and so are the disabled commands and the other settings. No
    identifier of a rebuilt catalog is the name of such a member. *)
Theorem hotkey_change_is_read_back
    (st : AppSettings) (commandId hotkey : string) :
  let changed := handleHotkeyChange commandId hotkey (Some st) in
  (commandId ∉ objectPrototypeMembers →
   getHotkey changed commandId = StringValue hotkey)
  ∧ (Js.truthy hotkey = true → commandId ≠ "__proto__" →
     getHotkey changed commandId = StringValue hotkey)
  ∧ (hotkey = "" → commandId ∈ objectPrototypeMembers →
     getHotkey changed commandId = InheritedMember commandId)
  ∧ (commandId = "__proto__" → commandHotkeys st !! commandId = None →
     getHotkey changed commandId = InheritedMember commandId)
  ∧ (∀ i, i ≠ commandId → getHotkey changed i = getHotkey (Some st) i)
  ∧ (∀ i, isDisabled changed i = isDisabled (Some st) i)
  ∧ otherSettings <$> changed = Some (otherSettings st)
  ∧ handleHotkeyChange commandId hotkey None = None
  ∧ (∀ w s e, e ∈ catalogOf w s → id e ∉ objectPrototypeMembers).
Proof.
  cbn [handleHotkeyChange getHotkey isDisabled commandHotkeys
         disabledCommands fmap option_fmap option_map otherSettings].
  assert (commandId ≠ "__proto__" →
          assignProperty commandId hotkey (commandHotkeys st)
          = <[commandId := hotkey]> (commandHotkeys st)) as Hassign.
  { intros Hid. unfold assignProperty.
    by rewrite (bool_decide_eq_false_2 (commandId = "__proto__")). }
  assert (∀ i, i ≠ commandId →
               assignProperty commandId hotkey (commandHotkeys st) !! i
               = commandHotkeys st !! i) as Hother.
  { intros i Hi. unfold assignProperty. destruct (_ && _); [done|].
    by rewrite lookup_insert_ne. }
  split_and!.
  - intros Hid.
    assert (commandId ≠ "__proto__") as Hproto.
    { intros ->. apply Hid. apply (bool_decide_unpack _). by vm_compute. }
    unfold Js.truthy. case_bool_decide as Hempty; cbn [negb].
    + subst hotkey. rewrite lookup_delete_eq.
      by rewrite bool_decide_eq_false_2.
    + by rewrite Hassign, lookup_insert_eq.
  - intros -> Hproto. by rewrite Hassign, lookup_insert_eq.
  - intros -> Hid. unfold Js.truthy.
    rewrite (bool_decide_eq_true_2 ("" = "")) by done. cbn [negb].
    rewrite lookup_delete_eq. by rewrite bool_decide_eq_true_2.
  - intros -> Hown.
    assert ((if Js.truthy hotkey
             then assignProperty "__proto__" hotkey (commandHotkeys st)
             else delete "__proto__" (commandHotkeys st)) !! "__proto__"
            = None) as ->.
    { destruct (Js.truthy hotkey); [|by rewrite lookup_delete_eq].
      unfold assignProperty. rewrite Hown.
      rewrite (bool_decide_eq_false_2 (is_Some None)) by by intros [? ?].
      by rewrite bool_decide_eq_true_2. }
    by rewrite bool_decide_eq_true_2
      by (apply (bool_decide_unpack _); by vm_compute).
  - intros i Hi. destruct (Js.truthy hotkey).
    + by rewrite Hother.
    + by rewrite lookup_delete_ne.
  - done.
  - done.
  - done.
  - intros w s e He. unfold catalogOf in He.
    destruct (catalogOf_discovered w s) as [Happs Hsettings].
    apply (Discovered_sorted _ w) in Happs, Hsettings.
    destruct Happs as [_ Happs]. destruct Hsettings as [_ Hsettings].
    destruct Discovered_system as [_ Hsys].
    rewrite Forall_forall in Happs, Hsettings, Hsys.
    apply elem_of_app in He as [He|He];
      [|apply elem_of_app in He as [He|He]].
    + destruct (Happs e He) as [_ ->]. apply deriveId_not_inherited.
    + destruct (Hsettings e He) as [_ ->]. apply deriveId_not_inherited.
    + destruct (Hsys e He) as [_ ->]. apply deriveId_not_inherited.
Qed.

Lemma elem_of_filterItems_filter searchQuery (P : CommandInfo → Prop)
    `{∀ c, Decision (P c)} (items : list CommandInfo) e :
  e ∈ filterItems searchQuery (filter P items)
  ↔ e ∈ filterItems searchQuery items ∧ P e.
Proof.
  unfold filterItems. destruct (negb _).
  - by rewrite list_elem_of_filter, (comm and).
  - rewrite !list_elem_of_filter. by split; [intros (? & ? & ?)|intros ((? & ?) & ?)].
Qed.

(** X19. The system tab lists exactly the application and settings
    entries of the catalog that pass the search filter, each as often
    as the filter keeps it, sorted together by title whenever the
    collation is a consistent comparison; the quit command is never on
    it. *)
Theorem system_tab_lists_the_filtered_entries
    (w : World) (searchQuery : string) (commands : list CommandInfo) :
  filteredSystemAll w searchQuery commands
  ≡ₚ filterItems searchQuery (filter (λ c, category c = CatApp) commands)
     ++ filterItems searchQuery
          (filter (λ c, category c = CatSettings) commands)
  ∧ (ConsistentCollation w →
     StronglySorted (TitleLe w) (filteredSystemAll w searchQuery commands))
  ∧ (∀ e, e ∈ filteredSystemAll w searchQuery commands ↔
          e ∈ filterItems searchQuery commands
          ∧ (category e = CatApp ∨ category e = CatSettings))
  ∧ (∀ e, e ∈ filteredSystemAll w searchQuery commands →
          category e ≠ CatSystem).
Proof.
  assert (∀ e, e ∈ filteredSystemAll w searchQuery commands ↔
               e ∈ filterItems searchQuery commands
               ∧ (category e = CatApp ∨ category e = CatSettings)) as Hin.
  { intros e. unfold filteredSystemAll, sortByTitle.
    rewrite sortBy_Permutation, elem_of_app, !elem_of_filterItems_filter.
    split; [intros [[? ?]|[? ?]]|intros [? [?|?]]]; auto. }
  split_and!; [apply sortBy_Permutation| |done|].
  - intros Hw. by apply sortByTitle_sorted.
  - intros e [_ [Hc|Hc]]%Hin; by rewrite Hc.
Qed.

(** The system tab on the catalog of the example machine, whose
    collation compares character codes: without a query the
    applications and the settings, which the catalog holds one group
    after the other, are listed together in the order of their titles,
    and the quit command is left out. *)
Lemma system_tab_example :
  ConsistentCollation demoWorld
  ∧ title <$> catalogOf demoWorld initialState
    = ["Alpha"; "Foo Bar"; "Foo-Bar"; ""; "Date & Time"; "Network"; "Wi-Fi";
       "Quit Launcher"]
  ∧ title <$> filteredSystemAll demoWorld "" (catalogOf demoWorld initialState)
    = [""; "Alpha"; "Date & Time"; "Foo Bar"; "Foo-Bar"; "Network"; "Wi-Fi"].
Proof. split; [by apply codeCompare_consistent|by vm_compute]. Qed.

End Settings.

End ExtensionsTab.
